(** * ComfyUI_Notte: diarization-aware transcript merge

    A shallow embedding of [src/modules/predict.py] (class [Predictor]) and
    [src/nodes/notte.py] (class [Notte]), and the properties of the merge,
    grouping and error-handling code.

    Modelling conventions.
    - Python floats (timestamps, log-probabilities) are exact rationals [Q];
      rounding of IEEE doubles is not modelled.  [offset_seconds] is an
      [int], embedded in [Q] with [inject_Z].
    - A Python [str] is a [string]; its characters are the code points
      below 256.
    - A Python [dict] with a fixed key set is a record; a key that may be
      absent is an [option] field.
    - A function that may raise returns [result]; the speech-to-text and
      diarization engines, the audio acquisition and [json.dumps] are
      outside this repository and enter as section variables. *)

From Stdlib Require Import List String Ascii Bool Arith ZArith QArith Lia Lqa.
From Stdlib Require Import Sorted Qround Qabs.
From Equations Require Import Equations.
Import ListNotations.

(** ** Exceptions and results *)

Inductive exception : Type :=
| ValueError (msg : string)
| UnboundLocalError (name : string)
| IndexError
| KeyError (key : string)
| RuntimeError (msg : string) (cause : exception)
| ExternalError (origin : string)
| TypeError (msg : string).

Inductive result (A : Type) : Type :=
| Ok (a : A)
| Raise (e : exception).

Arguments Ok {A} a.
Arguments Raise {A} e.

Definition bind {A B : Type} (r : result A) (k : A -> result B) : result B :=
  match r with
  | Ok a => k a
  | Raise e => Raise e
  end.

Notation "x <- r ;; k" := (bind r (fun x => k))
  (at level 61, r at next level, right associativity).
Notation "' p <- r ;; k" := (bind r (fun x => let p := x in k))
  (at level 61, p pattern, r at next level, right associativity).

(** ** Python string operations used by the merge *)

Module PyStr.

Local Open Scope string_scope.

(** [str.isspace] on one character: the whitespace code points below 256. *)
Definition isspace (c : ascii) : bool :=
  let n := nat_of_ascii c in
  (Nat.leb 9 n && Nat.leb n 13) || (Nat.leb 28 n && Nat.leb n 32)
  || Nat.eqb n 133 || Nat.eqb n 160.

Fixpoint lstrip (s : string) : string :=
  match s with
  | EmptyString => EmptyString
  | String c r => if isspace c then lstrip r else s
  end.

Fixpoint rstrip (s : string) : string :=
  match s with
  | EmptyString => EmptyString
  | String c r =>
      match rstrip r with
      | EmptyString => if isspace c then EmptyString else String c EmptyString
      | r' => String c r'
      end
  end.

(** Every character of [s] is whitespace. *)
Fixpoint all_space (s : string) : bool :=
  match s with
  | EmptyString => true
  | String c r => isspace c && all_space r
  end.

(** [s.strip()] *)
Definition strip (s : string) : string := rstrip (lstrip s).

(** ["".join(l)] *)
Definition join (l : list string) : string := String.concat "" l.

(** [re.sub("  ", " ", s)]: leftmost non-overlapping occurrences of two
    spaces, each replaced by one space; the scan resumes after the match. *)
Fixpoint sub_double_space (s : string) : string :=
  match s with
  | String " " (String " " r) => String " " (sub_double_space r)
  | String c r => String c (sub_double_space r)
  | EmptyString => EmptyString
  end.

End PyStr.

(** ** Data model *)

Open Scope Q_scope.

(** A word as the speech-to-text engine yields it, and the dict built from
    it: keys [start], [end], [word], [probability]. *)
Record Word : Type := mkWord {
  w_start : Q;
  w_end : Q;
  w_word : string;
  w_probability : Q
}.

(** A transcript segment, and the dict built from it: keys [avg_logprob],
    [start], [end], [text], [words].  The words are a list, as the
    engine yields them with [word_timestamps] true; [EngineSegment]
    below has the segments whose words are [None]. *)
Record Segment : Type := mkSegment {
  s_avg_logprob : Q;
  s_start : Q;
  s_end : Q;
  s_text : string;
  s_words : list Word
}.

(** One element of [diarization.itertracks(yield_label=True)]: the turn
    (a time interval), the track name and the speaker label. *)
Record Turn : Type := mkTurn {
  turn_start : Q;
  turn_end : Q
}.

Definition Track : Type := (Turn * string * string)%type.

(** The dict appended to [final_segments]. *)
Record LabeledSegment : Type := mkLabeled {
  l_avg_logprob : Q;
  l_start : Q;
  l_end : Q;
  l_speaker : string;
  l_text : string;
  l_words : list Word
}.

(** The dict appended to [output]; [text] and [words] are keys that may be
    absent. *)
Record Group : Type := mkGroup {
  g_start : Q;
  g_end : Q;
  g_speaker : string;
  g_avg_logprob : Q;
  g_text : option string;
  g_words : option (list Word)
}.

(** The [Output] dataclass. *)
Record Output : Type := mkOutput {
  segments : list Group;
  language : string;
  num_speakers : nat
}.

(** ** Building the segment dicts (predict.py, lines 206-223) *)

Definition build_word (offset_seconds : Z) (w : Word) : Word :=
  {| w_start := w_start w + inject_Z offset_seconds;
     w_end := w_end w + inject_Z offset_seconds;
     w_word := w_word w;
     w_probability := w_probability w |}.

Definition build_segment (offset_seconds : Z) (s : Segment) : Segment :=
  {| s_avg_logprob := s_avg_logprob s;
     s_start := s_start s + inject_Z offset_seconds;
     s_end := s_end s + inject_Z offset_seconds;
     s_text := s_text s;
     s_words := map (build_word offset_seconds) (s_words s) |}.

Definition build_segments (offset_seconds : Z) (l : list Segment) : list Segment :=
  map (build_segment offset_seconds) l.

(** ** The merge of words and turns (predict.py, lines 246-303) *)

Definition margin : Q := 1 # 10.

(** The two locals that survive from one word, and from one segment, to
    the next: the cursor [speaker_idx] and the variable [speaker], which is
    unbound until the first turn is unpacked. *)
Record Scan : Type := mkScan {
  speaker_idx : nat;
  speaker : option string
}.

Definition word_start (offset_seconds : Z) (word : Word) : Q :=
  w_start word + inject_Z offset_seconds - margin.

Definition word_end (offset_seconds : Z) (word : Word) : Q :=
  w_end word + inject_Z offset_seconds + margin.

(** The test of line 275. *)
Definition overlaps (turn : Turn) (ws we : Q) : bool :=
  Qle_bool (turn_start turn) we && Qle_bool ws (turn_end turn).

(** [x < y] on floats. *)
Definition Qlt_bool (x y : Q) : bool := negb (Qle_bool y x).

Section Merge.

Variable diarization_list : list Track.
Variable offset_seconds : Z.

Definition n_speakers : nat := List.length diarization_list.

(** The [while speaker_idx < n_speakers] loop for one word, given its
    widened window.  The result says whether the word was appended to
    the segment, and gives the two locals after the loop. *)
Equations? while_turns (ws we : Q) (idx : nat) (spk : option string)
  : result (bool * Scan) by wf (n_speakers - idx)%nat lt :=
while_turns ws we idx spk with lt_dec idx n_speakers := {
  | right _ => Ok (false, mkScan idx spk)
  | left Hlt with nth_error diarization_list idx := {
      | None => Raise IndexError
      | Some (turn, _, label) =>
          if overlaps turn ws we then
            Ok (true,
                mkScan (if Qle_bool (turn_end turn) we then S idx else idx)
                       (Some label))
          else if Qlt_bool (turn_end turn) ws then
            while_turns ws we (S idx) (Some label)
          else
            Ok (false, mkScan idx (Some label)) } }.
Proof. lia. Qed.

(** [word["word"] = word["word"].strip()]: the dict stored in
    [segment_words]. *)
Definition strip_word (word : Word) : Word :=
  {| w_start := w_start word;
     w_end := w_end word;
     w_word := PyStr.strip (w_word word);
     w_probability := w_probability word |}.

(** [for word in segment["words"]]: the flag of [while_turns] is [true]
    on the branch that appends to [segment_text] and [segment_words]. *)
Fixpoint word_loop (words : list Word) (st : Scan)
    (segment_text : list string) (segment_words : list Word)
  : result (Scan * list string * list Word) :=
  match words with
  | [] => Ok (st, segment_text, segment_words)
  | word :: rest =>
      '(appended, st') <-
        while_turns (word_start offset_seconds word)
                    (word_end offset_seconds word)
                    (speaker_idx st) (speaker st) ;;
      if appended : bool then
        word_loop rest st' (segment_text ++ [w_word word])
                  (segment_words ++ [strip_word word])
      else
        word_loop rest st' segment_text segment_words
  end.

(** The body of [for segment in segments]: the locals after the
    segment, and the dict appended to [final_segments] if there is one. *)
Definition segment_step (segment : Segment) (st : Scan)
  : result (Scan * option LabeledSegment) :=
  let segment_start := s_start segment + inject_Z offset_seconds in
  let segment_end := s_end segment + inject_Z offset_seconds in
  '(st', segment_text, segment_words) <-
    word_loop (s_words segment) st [] [] ;;
  match segment_text with
  | [] => Ok (st', None)
  | _ :: _ =>
      let combined_text := PyStr.join segment_text in
      let cleaned_text :=
        PyStr.strip (PyStr.sub_double_space combined_text) in
      match speaker st' with
      | None => Raise (UnboundLocalError "speaker")
      | Some spk =>
          Ok (st',
              Some {| l_avg_logprob := s_avg_logprob segment;
                      l_start := segment_start - inject_Z offset_seconds;
                      l_end := segment_end - inject_Z offset_seconds;
                      l_speaker := spk;
                      l_text := cleaned_text;
                      l_words := segment_words |})
      end
  end.

Fixpoint segment_loop (segs : list Segment) (st : Scan)
    (final_segments : list LabeledSegment)
  : result (Scan * list LabeledSegment) :=
  match segs with
  | [] => Ok (st, final_segments)
  | segment :: rest =>
      '(st', new_segment) <- segment_step segment st ;;
      match new_segment with
      | Some l => segment_loop rest st' (final_segments ++ [l])
      | None => segment_loop rest st' final_segments
      end
  end.

(** [speaker_idx = 0], [speaker] unbound, [final_segments = []]. *)
Definition merge (segs : list Segment) : result (list LabeledSegment) :=
  '(_, final_segments) <- segment_loop segs (mkScan 0 None) [] ;;
  Ok final_segments.

(** *** The aligner as the specification describes it

    Not a function of the source: each word of a segment paired with the
    label unpacked from the turn that retained it, [None] for a word
    that was dropped.  It runs the source's [while_turns] with the same
    cursor; [word_loop_labeled] below relates it to [word_loop]. *)
Fixpoint labeled_words (words : list Word) (st : Scan)
  : result (Scan * list (Word * option string)) :=
  match words with
  | [] => Ok (st, [])
  | word :: rest =>
      '(appended, st') <-
        while_turns (word_start offset_seconds word)
                    (word_end offset_seconds word)
                    (speaker_idx st) (speaker st) ;;
      '(st'', tl) <- labeled_words rest st' ;;
      Ok (st'', (word, if appended : bool then speaker st' else None) :: tl)
  end.

Definition retained (lw : list (Word * option string)) : list (Word * string) :=
  flat_map (fun p => match snd p with
                     | Some label => [(fst p, label)]
                     | None => []
                     end) lw.

End Merge.

(** [len({speaker for _, _, speaker in ...})] *)
Definition detected_num_speakers (diarization_list : list Track) : nat :=
  List.length (nodup string_dec (map snd diarization_list)).

(** ** Grouping (predict.py, lines 310-361) *)

Definition format_in (fmt : string) (l : list string) : bool :=
  existsb (String.eqb fmt) l.

Section Grouping.

Variable group_segments : bool.
Variable transcript_output_format : string.

Definition with_text : bool :=
  format_in transcript_output_format ["segments_only"; "both"]%string.

Definition with_words : bool :=
  format_in transcript_output_format ["words_only"; "both"]%string.

(** A group started from one segment (lines 320-330 and 349-358). *)
Definition new_group (s : LabeledSegment) : Group :=
  {| g_start := l_start s;
     g_end := l_end s;
     g_speaker := l_speaker s;
     g_avg_logprob := l_avg_logprob s;
     g_text := if with_text then Some (l_text s) else None;
     g_words := if with_words then Some (l_words s) else None |}.

(** The merging branch (lines 339-343).  [current_group["text"] += ...]
    raises [KeyError] on a group without the key;
    [setdefault("words", [])] does not. *)
Definition extend_group (g : Group) (s : LabeledSegment) : result Group :=
  text <-
    (if with_text then
       match g_text g with
       | Some t => Ok (Some (t ++ " " ++ l_text s)%string)
       | None => Raise (KeyError "text")
       end
     else Ok (g_text g)) ;;
  let words :=
    if with_words then
      Some (match g_words g with Some ws => ws | None => [] end ++ l_words s)
    else g_words g in
  Ok {| g_start := g_start g;
        g_end := l_end s;
        g_speaker := g_speaker g;
        g_avg_logprob := g_avg_logprob g;
        g_text := text;
        g_words := words |}.

(** The condition of line 338, for [segments[i-1] = prev] and
    [segments[i] = s]. *)
Definition merges (prev s : LabeledSegment) : bool :=
  let time_gap := l_start s - l_end prev in
  String.eqb (l_speaker s) (l_speaker prev) && Qle_bool time_gap 2
  && group_segments.

(** [for i in range(1, len(segments))], by recursion on
    [segments[i:]] with [prev = segments[i-1]]; the last line is the
    append after the loop. *)
Fixpoint group_loop (prev : LabeledSegment) (current_group : Group)
    (output : list Group) (rest : list LabeledSegment)
  : result (list Group) :=
  match rest with
  | [] => Ok (output ++ [current_group])
  | s :: rest' =>
      if merges prev s then
        g <- extend_group current_group s ;;
        group_loop s g output rest'
      else
        group_loop s (new_group s) (output ++ [current_group]) rest'
  end.

(** From [if not final_segments] to the end of [speech_to_text]. *)
Definition group (final_segments : list LabeledSegment)
  : result (list Group) :=
  match final_segments with
  | [] => Ok []
  | s0 :: rest => group_loop s0 (new_group s0) [] rest
  end.

End Grouping.

(** ** The pipeline around the merge *)

(** Truth value of an optional string: [None] and [""] are false. *)
Definition truthy (o : option string) : bool :=
  match o with
  | Some (String _ _) => true
  | _ => false
  end.

(** The attribute of [Predictor] that [setup] reads and writes. *)
Record Predictor : Type := mkPredictor {
  hf_token : option string
}.

Section Pipeline.

(** [WhisperModel(...)] and [Pipeline.from_pretrained(...)], given the
    token. *)
Variable load_models : string -> result unit.

(** The download or decoding of the audio and the [ffmpeg] run, given
    [file_string], [file_url] and [file]; the name of the wav file. *)
Variable acquire_audio :
  option string -> option string -> option string -> result string.

(** [self.model.transcribe]: the wav file, the prompt, the language
    hint, [translate], [word_timestamps]; the segments and
    [transcript_info.language]. *)
Variable transcribe :
  string -> option string -> option string -> bool -> bool ->
  result (list Segment * string).

(** [torchaudio.load] and [self.diarization_model], then
    [itertracks(yield_label=True)]: the wav file and the number of
    speakers asked for. *)
Variable diarize : string -> option nat -> result (list Track).

(** [json.dumps(..., ensure_ascii=False, indent=2)] *)
Variable json_dumps : list Group -> result string.

(** [setup(hf_token=token)]: [if not self.hf_token: raise ValueError],
    then the models are loaded. *)
Definition setup (self : Predictor) (token : option string)
  : result Predictor :=
  let self := if truthy token then mkPredictor token else self in
  match hf_token self with
  | Some (String c r) => _ <- load_models (String c r) ;; Ok self
  | _ => Raise (ValueError "HuggingFace token is required")
  end.

Definition speech_to_text (audio_file_wav : string)
    (num_speakers : option nat) (prompt : option string)
    (offset_seconds : Z) (group_segments : bool)
    (language : option string) (word_timestamps : bool)
    (transcript_output_format : string) (translate : bool)
  : result (list Group * nat * string) :=
  '(segs, transcript_language) <-
    transcribe audio_file_wav prompt language translate word_timestamps ;;
  let segs := build_segments offset_seconds segs in
  diarization_list <- diarize audio_file_wav num_speakers ;;
  let detected := detected_num_speakers diarization_list in
  final_segments <- merge diarization_list offset_seconds segs ;;
  output <- group group_segments transcript_output_format final_segments ;;
  Ok (output, detected, transcript_language).

(** [try: ... except Exception as e: raise RuntimeError(..., e)], for a
    run without callback, or with one that returns from every call, and
    whose [finally] clause removes the wav file without raising;
    [predict_full] below has the callback and the [finally] clause, and
    [predict_full_plain] relates the two. *)
Definition predict (file_string file_url file : option string)
    (group_segments : bool) (transcript_output_format : string)
    (num_speakers : option nat) (translate : bool)
    (language prompt : option string) (offset_seconds : Z)
  : result Output :=
  let body :=
    temp_wav_filename <- acquire_audio file_string file_url file ;;
    '(segs, detected, detected_language) <-
      speech_to_text temp_wav_filename num_speakers prompt offset_seconds
                     group_segments language true
                     transcript_output_format translate ;;
    Ok (mkOutput segs detected_language detected) in
  match body with
  | Ok o => Ok o
  | Raise e =>
      Raise (RuntimeError "Error Running inference with local model" e)
  end.

(** The [try] block of [Notte.process]: [Predictor()], [setup],
    [predict(file_url=audio_url)] with every other argument at its
    default, [json.dumps]. *)
Definition process_try (audio_url token : string)
  : result (nat * string * string) :=
  predictor <- setup (mkPredictor None) (Some token) ;;
  output <- predict None (Some audio_url) None true "both" None false
                    None None 0%Z ;;
  segments_json <- json_dumps (segments output) ;;
  Ok (num_speakers output, segments_json, language output).

(** [Notte.process]: [except Exception] returns the fixed triple. *)
Definition process (audio_url token : string) : nat * string * string :=
  match process_try audio_url token with
  | Ok triple => triple
  | Raise _ => (0%nat, "[]", "")%string
  end.

End Pipeline.

(** ** [convert_time] (predict.py, lines 175-176) *)

(** [round(x)] on a float: the nearest integer, a tie going to the even
    one. *)
Definition py_round (x : Q) : Z :=
  let f := Qfloor x in
  match Qcompare (x - inject_Z f) (1 # 2) with
  | Lt => f
  | Gt => (f + 1)%Z
  | Eq => if Z.even f then f else (f + 1)%Z
  end.

(** A [datetime.timedelta]: days, seconds within the day, microseconds. *)
Record Timedelta : Type := mkTimedelta {
  td_days : Z;
  td_seconds : Z;
  td_microseconds : Z
}.

(** [datetime.timedelta(seconds=n)] for an int [n]: the normal form, or
    [None] where Python raises [OverflowError] (more than 999999999
    days either way). *)
Definition timedelta_of_seconds (n : Z) : option Timedelta :=
  let d := (n / 86400)%Z in
  if (Z.abs d >? 999999999)%Z then None
  else Some (mkTimedelta d (n mod 86400)%Z 0).

Definition convert_time (secs : Q) (offset_seconds : Z) : option Timedelta :=
  timedelta_of_seconds (py_round secs + offset_seconds).

(** [td.total_seconds()] of a timedelta without microseconds. *)
Definition total_seconds (td : Timedelta) : Z :=
  (td_days td * 86400 + td_seconds td)%Z.

(** ** The payload of [file_string] (predict.py, lines 122-124) *)

(** ["," in s] *)
Fixpoint has_comma (s : string) : bool :=
  match s with
  | EmptyString => false
  | String c r => Ascii.eqb c "," || has_comma r
  end.

(** [s.split(",")] *)
Fixpoint split_comma (s : string) : list string :=
  match s with
  | EmptyString => [EmptyString]
  | String c r =>
      if Ascii.eqb c "," then EmptyString :: split_comma r
      else
        match split_comma r with
        | h :: t => String c h :: t
        | [] => [String c EmptyString]
        end
  end.

(** [file_string.split(",")[1] if "," in file_string else file_string]:
    the argument of [base64.b64decode]. *)
Definition file_string_payload (file_string : string) : result string :=
  if has_comma file_string then
    match nth_error (split_comma file_string) 1 with
    | Some piece => Ok piece
    | None => Raise IndexError
    end
  else Ok file_string.

(** ** Progress reports (predict.py, the calls of [_update_progress])

    The functions of the pipeline again, with the reports they make
    through [_update_progress].  A report is the dict passed to the
    callback; the callback is an observer that does not raise, and the
    log is the list of dicts it has received.  The status texts are the
    UTF-8 bytes of the source.  A callback that raises is in
    [call_back] and [predict_full] below. *)

Record Report : Type := mkReport {
  status : string;
  progress : Z
}.

(** A computation that makes reports and may raise. *)
Definition Reporting (A : Type) : Type := (list Report * result A)%type.

Definition quiet {A : Type} (r : result A) : Reporting A := ([], r).

Definition then_report {A B : Type} (m : Reporting A)
    (k : A -> Reporting B) : Reporting B :=
  match snd m with
  | Ok a => (fst m ++ fst (k a), snd (k a))
  | Raise e => (fst m, Raise e)
  end.

Notation "x <~ m ;; k" := (then_report m (fun x => k))
  (at level 61, m at next level, right associativity).
Notation "' p <~ m ;; k" := (then_report m (fun x => let p := x in k))
  (at level 61, p pattern, m at next level, right associativity).

(** [_update_progress]: [if self.progress_callback:] the callback gets
    the dict. *)
Definition update_progress (progress_callback : bool) (st : string)
    (pr : Z) : Reporting unit :=
  (if progress_callback then [ mkReport st pr ] else [], Ok tt).

Section Reports.

(** Whether [self.progress_callback] is set. *)
Variable progress_callback : bool.

(** [WhisperModel(...)], and [Pipeline.from_pretrained(...)] with the
    move to the device, given the token. *)
Variable load_whisper : result unit.
Variable load_diarization : string -> result unit.

Variable acquire_audio :
  option string -> option string -> option string -> result string.

Variable transcribe :
  string -> option string -> option string -> bool -> bool ->
  result (list Segment * string).

(** [torchaudio.load] and [self.diarization_model] with [itertracks],
    apart. *)
Variable Waveform : Type.
Variable torchaudio_load : string -> result Waveform.
Variable diarization_model : Waveform -> option nat -> result (list Track).

(** [str(e)] *)
Variable str_of_exception : exception -> string.

Local Abbreviation report := (update_progress progress_callback).

(** [setup] with a callback argument: [called_with] tells whether the
    argument is set, in which case it replaces the attribute; the pair
    is the attribute after the call and the reports made with it. *)
Definition setup_reports (called_with : bool) (self : Predictor)
    (token : option string) : bool * Reporting Predictor :=
  let callback := if called_with then true else progress_callback in
  let self := if truthy token then mkPredictor token else self in
  (callback,
   match hf_token self with
   | Some (String c r) =>
       _ <~ update_progress callback
              "正在加载 Whisper 模型..." 0 ;;
       _ <~ quiet load_whisper ;;
       _ <~ update_progress callback
              "正在加载说话人分离模型..." 10 ;;
       _ <~ quiet (load_diarization (String c r)) ;;
       _ <~ update_progress callback "模型加载完成" 20 ;;
       quiet (Ok self)
   | _ => quiet (Raise (ValueError "HuggingFace token is required"))
   end).

Definition speech_to_text_reports (audio_file_wav : string)
    (num_speakers : option nat) (prompt : option string)
    (offset_seconds : Z) (group_segments : bool)
    (language : option string) (word_timestamps : bool)
    (transcript_output_format : string) (translate : bool)
  : Reporting (list Group * nat * string) :=
  _ <~ report "开始语音识别..." 50 ;;
  '(segs, transcript_language) <~
    quiet (transcribe audio_file_wav prompt language translate
                      word_timestamps) ;;
  let segs := build_segments offset_seconds segs in
  waveform <~ quiet (torchaudio_load audio_file_wav) ;;
  _ <~ report "开始说话人分离..." 60 ;;
  diarization_list <~ quiet (diarization_model waveform num_speakers) ;;
  let detected := detected_num_speakers diarization_list in
  final_segments <~ quiet (merge diarization_list offset_seconds segs) ;;
  match final_segments with
  | [] => quiet (Ok ([], detected, transcript_language))
  | _ :: _ =>
      output <~ quiet (group group_segments transcript_output_format
                             final_segments) ;;
      _ <~ report "清理和格式化结果..." 90 ;;
      quiet (Ok (output, detected, transcript_language))
  end.

(** The branches of lines 79-145: the report of the source that is
    used, if any, then its acquisition. *)
Definition acquire_reports (file_string file_url file : option string)
  : Reporting string :=
  _ <~ match file, file_url, file_string with
       | Some _, _, _ => report "正在转换音频格式..." 30
       | None, Some _, _ => report "正在下载音频文件..." 30
       | None, None, Some _ => report "正在解码音频数据..." 30
       | None, None, None => quiet (Ok tt)
       end ;;
  quiet (acquire_audio file_string file_url file).

Definition predict_reports (file_string file_url file : option string)
    (group_segments : bool) (transcript_output_format : string)
    (num_speakers : option nat) (translate : bool)
    (language prompt : option string) (offset_seconds : Z)
  : Reporting Output :=
  let body :=
    _ <~ report "开始处理音频文件..." 25 ;;
    temp_wav_filename <~ acquire_reports file_string file_url file ;;
    _ <~ report "开始转录音频..." 40 ;;
    '(segs, detected, detected_language) <~
      speech_to_text_reports temp_wav_filename num_speakers prompt
                             offset_seconds group_segments language true
                             transcript_output_format translate ;;
    _ <~ report "处理完成" 100 ;;
    quiet (Ok (mkOutput segs detected_language detected)) in
  match snd body with
  | Ok o => body
  | Raise e =>
      (fst body
       ++ fst (report ("处理出错: " ++ str_of_exception e)%string (-1)),
       Raise (RuntimeError "Error Running inference with local model" e))
  end.

(** The diarization as [predict] takes it: the load, then the model. *)
Definition diarize_of (wav : string) (num_speakers : option nat)
  : result (list Track) :=
  waveform <- torchaudio_load wav ;;
  diarization_model waveform num_speakers.

(** Both loads as [setup] takes them. *)
Definition load_models_of (token : string) : result unit :=
  _ <- load_whisper ;; load_diarization token.

End Reports.

(** ** The pipeline with a callback that may raise and with its clean-up

    [speech_to_text] and [predict] once more, with what the definitions
    above leave to their callers: the words of a segment of the engine
    may be [None] (they are when [word_timestamps] is false), the
    callback is any callable and may raise, and the [finally] clause of
    [predict] reads [temp_wav_filename] and removes the file. *)

(** A segment as the engine yields it: [s.words] is a list or [None]. *)
Record EngineSegment : Type := mkEngineSegment {
  e_avg_logprob : Q;
  e_start : Q;
  e_end : Q;
  e_text : string;
  e_words : option (list Word)
}.

(** [for w in s.words] (line 219) raises [TypeError] on [None]. *)
Definition to_segment (s : EngineSegment) : result Segment :=
  match e_words s with
  | Some ws =>
      Ok (mkSegment (e_avg_logprob s) (e_start s) (e_end s) (e_text s) ws)
  | None => Raise (TypeError "'NoneType' object is not iterable")
  end.

Fixpoint to_segments (l : list EngineSegment) : result (list Segment) :=
  match l with
  | [] => Ok []
  | s :: rest =>
      seg <- to_segment s ;;
      segs <- to_segments rest ;;
      Ok (seg :: segs)
  end.

(** The list comprehension of lines 206-223 on the segments of the
    engine. *)
Definition build_engine_segments (offset_seconds : Z)
    (l : list EngineSegment) : result (list Segment) :=
  segs <- to_segments l ;;
  Ok (build_segments offset_seconds segs).

(** [_update_progress] with a callback that may raise: the log has the
    dict of every call made, the result is the result of the call. *)
Definition call_back (progress_callback : option (Report -> result unit))
    (st : string) (pr : Z) : Reporting unit :=
  match progress_callback with
  | Some f => ([ mkReport st pr ], f (mkReport st pr))
  | None => ([], Ok tt)
  end.

Section Full.

Variable progress_callback : option (Report -> result unit).

Variable acquire_audio :
  option string -> option string -> option string -> result string.

(** [self.model.transcribe] with the segments as the engine yields them. *)
Variable transcribe_engine :
  string -> option string -> option string -> bool -> bool ->
  result (list EngineSegment * string).

Variable Waveform : Type.
Variable torchaudio_load : string -> result Waveform.
Variable diarization_model : Waveform -> option nat -> result (list Track).
Variable str_of_exception : exception -> string.

(** The [finally] clause once [temp_wav_filename] is bound:
    [if os.path.exists(...): os.remove(...)]. *)
Variable remove_wav : result unit.

Local Abbreviation report := (call_back progress_callback).

Definition speech_to_text_full (audio_file_wav : string)
    (num_speakers : option nat) (prompt : option string)
    (offset_seconds : Z) (group_segments : bool)
    (language : option string) (word_timestamps : bool)
    (transcript_output_format : string) (translate : bool)
  : Reporting (list Group * nat * string) :=
  _ <~ report "开始语音识别..." 50 ;;
  '(segs, transcript_language) <~
    quiet (transcribe_engine audio_file_wav prompt language translate
                             word_timestamps) ;;
  segs <~ quiet (build_engine_segments offset_seconds segs) ;;
  waveform <~ quiet (torchaudio_load audio_file_wav) ;;
  _ <~ report "开始说话人分离..." 60 ;;
  diarization_list <~ quiet (diarization_model waveform num_speakers) ;;
  let detected := detected_num_speakers diarization_list in
  final_segments <~ quiet (merge diarization_list offset_seconds segs) ;;
  match final_segments with
  | [] => quiet (Ok ([], detected, transcript_language))
  | _ :: _ =>
      output <~ quiet (group group_segments transcript_output_format
                             final_segments) ;;
      _ <~ report "清理和格式化结果..." 90 ;;
      quiet (Ok (output, detected, transcript_language))
  end.

(** The first statement of the [try] block (line 76); the name
    [temp_wav_filename] is bound once it has returned (line 77). *)
Definition predict_start : Reporting unit :=
  report "开始处理音频文件..." 25.

(** The [try] block of [predict] (lines 76-165). *)
Definition predict_try (file_string file_url file : option string)
    (group_segments : bool) (transcript_output_format : string)
    (num_speakers : option nat) (translate : bool)
    (language prompt : option string) (offset_seconds : Z)
  : Reporting Output :=
  _ <~ predict_start ;;
  _ <~ match file, file_url, file_string with
       | Some _, _, _ => report "正在转换音频格式..." 30
       | None, Some _, _ => report "正在下载音频文件..." 30
       | None, None, Some _ => report "正在解码音频数据..." 30
       | None, None, None => quiet (Ok tt)
       end ;;
  temp_wav_filename <~ quiet (acquire_audio file_string file_url file) ;;
  _ <~ report "开始转录音频..." 40 ;;
  '(segs, detected, detected_language) <~
    speech_to_text_full temp_wav_filename num_speakers prompt
                        offset_seconds group_segments language true
                        transcript_output_format translate ;;
  _ <~ report "处理完成" 100 ;;
  quiet (Ok (mkOutput segs detected_language detected)).

(** The [except Exception as e] clause (lines 167-169) on the outcome of
    the [try] block: the callback is called again, and what it raises
    takes the place of the [RuntimeError]. *)
Definition predict_except (tried : Reporting Output) : Reporting Output :=
  match snd tried with
  | Ok _ => tried
  | Raise e =>
      let failed :=
        report ("处理出错: " ++ str_of_exception e)%string (-1) in
      (fst tried ++ fst failed,
       match snd failed with
       | Ok _ =>
           Raise (RuntimeError "Error Running inference with local model" e)
       | Raise e' => Raise e'
       end)
  end.

(** The [finally] clause (lines 171-173) on the outcome so far: reading
    [temp_wav_filename] raises when line 77 was not reached, and what
    the removal raises takes the place of the outcome. *)
Definition predict_finally (handled : Reporting Output) : Reporting Output :=
  (fst handled,
   match snd predict_start with
   | Raise _ => Raise (UnboundLocalError "temp_wav_filename")
   | Ok _ =>
       match remove_wav with
       | Ok _ => snd handled
       | Raise e => Raise e
       end
   end).

Definition predict_full (file_string file_url file : option string)
    (group_segments : bool) (transcript_output_format : string)
    (num_speakers : option nat) (translate : bool)
    (language prompt : option string) (offset_seconds : Z)
  : Reporting Output :=
  predict_finally
    (predict_except
       (predict_try file_string file_url file group_segments
                    transcript_output_format num_speakers translate
                    language prompt offset_seconds)).

(** The transcription as [speech_to_text] above takes it: the call of the
    engine, then the words of every segment. *)
Definition transcribe_of (audio_file_wav : string)
    (prompt language : option string) (translate word_timestamps : bool)
  : result (list Segment * string) :=
  '(segs, transcript_language) <-
    transcribe_engine audio_file_wav prompt language translate
                      word_timestamps ;;
  segs <- to_segments segs ;;
  Ok (segs, transcript_language).

End Full.

(** ** Vocabulary of the statements *)

(** The raw text and the stored dict of a retained word. *)
Definition raw_text (p : Word * string) : string := w_word (fst p).

Definition stored_word (p : Word * string) : Word := strip_word (fst p).

(** Two neighbours of the output that the grouping had a reason not to
    merge. *)
Definition separated (group_segments : bool) (g1 g2 : Group) : Prop :=
  group_segments = false \/
  g_speaker g1 <> g_speaker g2 \/
  2 < g_start g2 - g_end g1.

Fixpoint all_separated (group_segments : bool) (l : list Group) : Prop :=
  match l with
  | g1 :: tl =>
      match tl with
      | g2 :: _ => separated group_segments g1 g2
      | [] => True
      end /\ all_separated group_segments tl
  | [] => True
  end.

(** The keys a group must have, and must not have, under a format. *)
Definition shaped (fmt : string) (g : Group) : Prop :=
  (if with_text fmt then g_text g <> None else g_text g = None) /\
  (if with_words fmt then g_words g <> None else g_words g = None).

(** The number of segments after [prev] that are not merged into the
    group of their predecessor. *)
Fixpoint breaks (group_segments : bool) (prev : LabeledSegment)
    (rest : list LabeledSegment) : nat :=
  match rest with
  | [] => 0
  | s :: rest' =>
      ((if merges group_segments prev s then 0 else 1)
       + breaks group_segments s rest')%nat
  end.

(** The while loop, entered at [idx], reaches the turn at [j]: the turns
    from [idx] up to [j] end before the window, and the turn at [j]
    passes the test of line 275. *)
Definition stops_at (diarization_list : list Track) (ws we : Q)
    (idx j : nat) : Prop :=
  (idx <= j)%nat /\
  (exists turn track label,
      nth_error diarization_list j = Some (turn, track, label) /\
      overlaps turn ws we = true) /\
  forall i, (idx <= i < j)%nat ->
    exists turn track label,
      nth_error diarization_list i = Some (turn, track, label) /\
      turn_end turn < ws.

(** Every word of the group is a word of a segment in [origin]. *)
Definition words_from (origin : LabeledSegment -> Prop) (g : Group) : Prop :=
  forall ws w,
    g_words g = Some ws -> In w ws ->
    exists s, origin s /\ In w (l_words s).

(** A callback that returns from every call, or no callback. *)
Definition never_raises (progress_callback : option (Report -> result unit))
  : Prop :=
  forall f r, progress_callback = Some f -> f r = Ok tt.

(** *** The cleaning of a text, in the words of the specification

    Stated without the functions of [PyStr], to compare them with. *)

(** The code points below 256 that Python counts as whitespace. *)
Definition whitespace_codes : list nat :=
  [ 9; 10; 11; 12; 13; 28; 29; 30; 31; 32; 133; 160 ]%nat.

Definition white (c : ascii) : Prop := In (nat_of_ascii c) whitespace_codes.

Fixpoint every_char (P : ascii -> Prop) (s : string) : Prop :=
  match s with
  | EmptyString => True
  | String c r => P c /\ every_char P r
  end.

(** [t] is [s] with the whitespace at both ends removed: only whitespace
    is cut off, and nothing of it is left at either end. *)
Definition trims_to (s t : string) : Prop :=
  (exists pre post,
      s = (pre ++ t ++ post)%string /\
      every_char white pre /\ every_char white post) /\
  (forall c r, t = String c r -> ~ white c) /\
  (forall r c, t = (r ++ String c "")%string -> ~ white c).

(** [t] is [s] read from the left with every two consecutive spaces
    replaced by one, the reading resuming after the two. *)
Inductive collapses : string -> string -> Prop :=
| collapses_end : collapses EmptyString EmptyString
| collapses_two (r r' : string) :
    collapses r r' ->
    collapses (String " " (String " " r)) (String " " r')
| collapses_other (c : ascii) (r r' : string) :
    (c <> " "%char \/ forall t, r <> String " " t) ->
    collapses r r' ->
    collapses (String c r) (String c r').

(** The rule of the data model of the specification for one segment step:
    the label of the dict is the label of the first retained word. *)
Definition first_word_rule (diarization_list : list Track)
    (offset_seconds : Z) (segment : Segment) (st : Scan) : Prop :=
  forall st' l lw w label tl,
    segment_step diarization_list offset_seconds segment st
    = Ok (st', Some l) ->
    labeled_words diarization_list offset_seconds (s_words segment) st
    = Ok (st', lw) ->
    retained lw = (w, label) :: tl ->
    l_speaker l = label.

(** ** Concrete runs *)

Module Run.

Local Open Scope string_scope.

Definition word (a b : Q) (text : string) : Word := mkWord a b text (9 # 10).

Definition start : Scan := mkScan 0 None.

(** A first turn that ends within the first word, and a second turn
    that begins after the second word. *)
Definition turns_gap : list Track :=
  [ (mkTurn 0 (1 # 2), "A", "SPEAKER_00");
    (mkTurn 5 6, "B", "SPEAKER_01") ].

Definition segment_gap : Segment :=
  mkSegment (-1 # 5) 0 2 " hi there"
            [ word 0 1 " hi"; word 1 2 " there" ].

(** Two turns that meet at 5s, and a segment with a word in each. *)
Definition turns_meet : list Track :=
  [ (mkTurn 0 5, "A", "SPEAKER_00");
    (mkTurn 5 10, "B", "SPEAKER_01") ].

Definition segment_meet : Segment :=
  mkSegment (-1 # 5) 0 6 " hi yo"
            [ word 0 1 " hi"; word (26 # 5) 6 " yo" ].

(** A segment whose words carry spaces on both sides. *)
Definition segment_spaced : Segment :=
  mkSegment (-1 # 5) 0 6 " hi  yo "
            [ word 0 1 " hi "; word (26 # 5) 6 " yo " ].

(** The same two turns with three words in two segments. *)
Definition segment_hi_there : Segment :=
  mkSegment (-1 # 5) 0 2 " hi there"
            [ word 0 1 " hi"; word 1 2 " there" ].

Definition segment_yo : Segment :=
  mkSegment (-1 # 4) (26 # 5) 6 " yo" [ word (26 # 5) 6 " yo" ].

(** One word at 0s-1s and one turn at 20s-21s. *)
Definition turns_late : list Track :=
  [ (mkTurn 20 21, "A", "SPEAKER_00") ].

Definition turns_early : list Track :=
  [ (mkTurn 0 5, "A", "SPEAKER_00") ].

Definition segment_hi : Segment :=
  mkSegment (-1 # 5) 0 1 " hi" [ word 0 1 " hi" ].

(** Three segments of one speaker: the second begins 1.5s after the
    first ends, the third 2.5s after the second ends. *)
Definition seg_a : LabeledSegment :=
  mkLabeled (-1 # 5) 0 2 "SPEAKER_00" "hi there"
            [ word 0 1 "hi"; word 1 2 "there" ].

Definition seg_b : LabeledSegment :=
  mkLabeled (-1 # 4) (7 # 2) 5 "SPEAKER_00" "again" [ word (7 # 2) 5 "again" ].

Definition seg_c : LabeledSegment :=
  mkLabeled (-1 # 3) (15 # 2) 9 "SPEAKER_00" "bye" [ word (15 # 2) 9 "bye" ].

Definition group_ab : Group :=
  mkGroup 0 5 "SPEAKER_00" (-1 # 5) (Some "hi there again")
          (Some [ word 0 1 "hi"; word 1 2 "there"; word (7 # 2) 5 "again" ]).

Definition group_c : Group :=
  mkGroup (15 # 2) 9 "SPEAKER_00" (-1 # 3) (Some "bye")
          (Some [ word (15 # 2) 9 "bye" ]).

(** Engines that return fixed values. *)
Definition load_ok (_ : string) : result unit := Ok tt.

Definition acquire_ok (_ _ _ : option string) : result string :=
  Ok "temp-0.wav".

Definition transcribe_to (segs : list Segment)
    (_ : string) (_ _ : option string) (_ _ : bool)
  : result (list Segment * string) :=
  Ok (segs, "en").

Definition diarize_to (turns : list Track) (_ : string) (_ : option nat)
  : result (list Track) :=
  Ok turns.

Definition dumps_fixed (_ : list Group) : result string := Ok "[...]".

Definition failing {A : Type} : result A :=
  Raise (ExternalError "engine").

End Run.

(** A value of [speaker] that is unbound or a label of the list. *)
Definition known_speaker (diarization_list : list Track)
    (o : option string) : Prop :=
  forall label, o = Some label -> In label (map snd diarization_list).

(** A run of segments: its first segment and the ones merged after it. *)
Definition Run_of_segments : Type := (LabeledSegment * list LabeledSegment)%type.

Definition run_segments (r : Run_of_segments) : list LabeledSegment :=
  fst r :: snd r.

(** The group a run amounts to: start, speaker and log-probability of its
    first segment, end of its last segment, the texts joined by one
    space, the word lists appended. *)
Definition run_group (fmt : string) (r : Run_of_segments) : Group :=
  {| g_start := l_start (fst r);
     g_end := l_end (last (snd r) (fst r));
     g_speaker := l_speaker (fst r);
     g_avg_logprob := l_avg_logprob (fst r);
     g_text :=
       if with_text fmt
       then Some (String.concat " " (map l_text (run_segments r)))
       else None;
     g_words :=
       if with_words fmt
       then Some (flat_map l_words (run_segments r))
       else None |}.

(** Every segment after [prev] passes the test of line 338 against its
    predecessor. *)
Fixpoint all_merge (group_segments : bool) (prev : LabeledSegment)
    (rest : list LabeledSegment) : Prop :=
  match rest with
  | [] => True
  | s :: rest' =>
      merges group_segments prev s = true /\
      all_merge group_segments s rest'
  end.

(** The word list of a group, empty when the key is absent. *)
Definition words_of_group (g : Group) : list Word :=
  match g_words g with
  | Some ws => ws
  | None => []
  end.

(** The characters of a string that are not whitespace. *)
Fixpoint visible (s : string) : string :=
  match s with
  | EmptyString => EmptyString
  | String c r =>
      if PyStr.isspace c then visible r else String c (visible r)
  end.

(** A string that neither begins nor ends with whitespace. *)
Definition stripped (s : string) : Prop :=
  (forall c r, s = String c r -> PyStr.isspace c = false) /\
  (forall r c, s = (r ++ String c "")%string -> PyStr.isspace c = false).

(** * Properties *)

(** ** Strings *)

Module PyStrFacts.

Import PyStr.
Local Open Scope string_scope.

Lemma lstrip_split (s : string) :
  exists pre, s = pre ++ lstrip s /\ all_space pre = true.
Proof.
  induction s as [|c r (pre & E & H)]; simpl.
  - exists "". auto.
  - destruct (isspace c) eqn:Ec.
    + exists (String c pre). simpl. rewrite Ec, H, <- E. auto.
    + exists "". auto.
Qed.

Lemma rstrip_split (s : string) :
  exists post, s = rstrip s ++ post /\ all_space post = true.
Proof.
  induction s as [|c r (post & E & H)]; simpl.
  - exists "". auto.
  - destruct (rstrip r) as [|b r'] eqn:Er.
    + simpl in E. subst r. destruct (isspace c) eqn:Ec.
      * exists (String c post). simpl. rewrite Ec, H. auto.
      * exists post. auto.
    + exists post. split; [simpl in *; congruence|exact H].
Qed.

Lemma lstrip_head (s : string) (c : ascii) (r : string) :
  lstrip s = String c r -> isspace c = false.
Proof.
  induction s as [|a s IH]; simpl; [discriminate|].
  destruct (isspace a) eqn:Ea; [exact IH|].
  intros [= <- _]. exact Ea.
Qed.

Lemma rstrip_head (s : string) (c : ascii) (r : string) :
  rstrip s = String c r -> exists r', s = String c r'.
Proof.
  destruct s as [|a s]; simpl; [discriminate|].
  destruct (rstrip s); [destruct (isspace a); [discriminate|]|];
    intros [= <- _]; eauto.
Qed.

Lemma rstrip_last (s r : string) (c : ascii) :
  rstrip s = r ++ String c "" -> isspace c = false.
Proof.
  revert r. induction s as [|a s IH]; intros r; simpl.
  - destruct r; discriminate.
  - destruct (rstrip s) as [|b t] eqn:Es.
    + destruct (isspace a) eqn:Ea; [destruct r; discriminate|].
      destruct r as [|x r]; simpl.
      * intros [= <-]. exact Ea.
      * intros [= _ E]. destruct r; discriminate.
    + destruct r as [|x r]; simpl; [discriminate|].
      intros [= _ E]. eapply IH. exact E.
Qed.

(** [strip] removes whitespace, and only whitespace, at both ends. *)
Lemma strip_spec (s : string) :
  (exists pre post,
      s = pre ++ strip s ++ post /\
      all_space pre = true /\ all_space post = true) /\
  (forall c r, strip s = String c r -> isspace c = false) /\
  (forall r c, strip s = r ++ String c "" -> isspace c = false).
Proof.
  unfold strip. split; [|split].
  - destruct (lstrip_split s) as (pre & E1 & H1).
    destruct (rstrip_split (lstrip s)) as (post & E2 & H2).
    exists pre, post. rewrite <- E2. auto.
  - intros c r E. apply rstrip_head in E as [r' E].
    eapply lstrip_head; eauto.
  - intros r c E. eapply rstrip_last; eauto.
Qed.

(** The replacement, on the first two characters. *)
Lemma sub_double_space_pair (r : string) :
  sub_double_space (String " " (String " " r))
  = String " " (sub_double_space r).
Proof. reflexivity. Qed.

Lemma sub_double_space_other (c : ascii) (r : string) :
  c <> " "%char ->
  sub_double_space (String c r) = String c (sub_double_space r).
Proof.
  intros H. simpl.
  destruct c as [[] [] [] [] [] [] [] []]; try reflexivity.
  exfalso. apply H. reflexivity.
Qed.

Lemma sub_double_space_single (c : ascii) (r : string) :
  c <> " "%char ->
  sub_double_space (String " " (String c r))
  = String " " (sub_double_space (String c r)).
Proof.
  intros H.
  destruct c as [[] [] [] [] [] [] [] []]; try reflexivity.
  exfalso. apply H. reflexivity.
Qed.

(** One pass: two spaces give one, three give two, four give two. *)
Example sub_double_space_runs :
  sub_double_space "a  b" = "a b" /\
  sub_double_space "a   b" = "a  b" /\
  sub_double_space "a    b" = "a  b".
Proof. repeat split. Qed.

Example strip_runs :
  strip ("  hi  there " ++ String (ascii_of_nat 9) "") = "hi  there" /\ strip "   " = "" /\
  join [ " hi"; " there" ] = " hi there".
Proof. repeat split. Qed.

End PyStrFacts.

(** ** The while loop *)

Section WhileTurns.

Variable diarization_list : list Track.

(** The loop never indexes past the list, so it always returns. *)
Lemma while_turns_returns (ws we : Q) (idx : nat) (spk : option string) :
  exists appended st,
    while_turns diarization_list ws we idx spk = Ok (appended, st).
Proof.
  funelim (while_turns diarization_list ws we idx spk).
  - eauto.
  - destruct (overlaps turn ws we); [eauto|].
    destruct (Qlt_bool (turn_end turn) ws); eauto.
  - exfalso. apply nth_error_None in Heq. unfold n_speakers in Hlt. lia.
Qed.

(** What the loop has done when it appends the word: it has stepped over
    turns that end before the window, and stopped at a turn that
    overlaps it, whose label is now in [speaker]. *)
Lemma while_turns_appended (ws we : Q) (idx : nat) (spk : option string)
    (st : Scan) :
  while_turns diarization_list ws we idx spk = Ok (true, st) ->
  exists j turn track label,
    (idx <= j)%nat /\
    nth_error diarization_list j = Some (turn, track, label) /\
    overlaps turn ws we = true /\
    speaker st = Some label /\
    speaker_idx st = (if Qle_bool (turn_end turn) we then S j else j).
Proof.
  funelim (while_turns diarization_list ws we idx spk); intros E.
  - discriminate.
  - destruct (overlaps turn ws we) eqn:Ho.
    + injection E as <-. exists idx, turn, s0, label. auto.
    + destruct (Qlt_bool (turn_end turn) ws); [|discriminate].
      destruct (H st E) as (j & t & tr & l & Hj & Hn & Hov & Hs & Hi).
      exists j, t, tr, l. repeat split; auto. lia.
  - discriminate.
Qed.

(** Once bound, [speaker] stays bound; appending binds it. *)
Lemma while_turns_speaker (ws we : Q) (idx : nat) (spk : option string)
    (appended : bool) (st : Scan) :
  while_turns diarization_list ws we idx spk = Ok (appended, st) ->
  speaker st = None -> spk = None /\ appended = false.
Proof.
  funelim (while_turns diarization_list ws we idx spk); intros E Hn.
  - injection E as <- <-. auto.
  - destruct (overlaps turn ws we).
    + injection E as <- <-. discriminate.
    + destruct (Qlt_bool (turn_end turn) ws).
      * destruct (H _ _ E Hn). discriminate.
      * injection E as <- <-. discriminate.
  - discriminate.
Qed.

(** One iteration of the loop at a valid index. *)
Lemma while_turns_step (ws we : Q) (idx : nat) (spk : option string)
    (turn : Turn) (track label : string) :
  nth_error diarization_list idx = Some (turn, track, label) ->
  while_turns diarization_list ws we idx spk =
  if overlaps turn ws we then
    Ok (true,
        mkScan (if Qle_bool (turn_end turn) we then S idx else idx)
               (Some label))
  else if Qlt_bool (turn_end turn) ws then
    while_turns diarization_list ws we (S idx) (Some label)
  else
    Ok (false, mkScan idx (Some label)).
Proof.
  funelim (while_turns diarization_list ws we idx spk); intros E.
  - exfalso. apply n. apply nth_error_Some. congruence.
  - rewrite Heq in E. injection E as -> -> ->. reflexivity.
  - congruence.
Qed.

Lemma Qlt_bool_iff (x y : Q) : Qlt_bool x y = true <-> x < y.
Proof.
  unfold Qlt_bool. rewrite negb_true_iff. split.
  - intros H. apply Qnot_le_lt. intros Hle.
    apply Qle_bool_iff in Hle. congruence.
  - intros H. destruct (Qle_bool y x) eqn:E; [|reflexivity].
    apply Qle_bool_iff in E. exfalso. eapply Qlt_not_le; eauto.
Qed.

(** The word is appended exactly when the loop reaches an overlapping
    turn over turns that end before the window. *)
Lemma while_turns_appended_iff (ws we : Q) (idx : nat)
    (spk : option string) :
  (exists st, while_turns diarization_list ws we idx spk = Ok (true, st))
  <-> exists j, stops_at diarization_list ws we idx j.
Proof.
  split.
  - intros [st E]. revert st E.
    funelim (while_turns diarization_list ws we idx spk); intros st E.
    + discriminate.
    + destruct (overlaps turn ws we) eqn:Ho.
      * exists idx. split; [lia|]. split; [eauto 6|]. intros i Hi. lia.
      * destruct (Qlt_bool (turn_end turn) ws) eqn:Hl; [|discriminate].
        destruct (H st E) as (j & Hj & Hov & Hskip).
        exists j. split; [lia|]. split; [exact Hov|].
        intros i Hi. destruct (Nat.eq_dec i idx) as [->|Hne].
        -- exists turn, s0, label. split; [exact Heq|].
           apply Qlt_bool_iff. exact Hl.
        -- apply Hskip. lia.
    + discriminate.
  - intros (j & Hj & (turn & track & label & Hn & Hov) & Hskip).
    remember (j - idx)%nat as d eqn:Hd.
    revert idx spk Hj Hskip Hd.
    induction d as [|d IH]; intros idx spk Hj Hskip Hd.
    + assert (idx = j) by lia. subst idx.
      rewrite (while_turns_step ws we _ spk _ _ _ Hn), Hov. eauto.
    + destruct (Hskip idx) as (t & tr & l & Hn' & Hlt); [lia|].
      rewrite (while_turns_step ws we _ spk _ _ _ Hn').
      assert (Ho : overlaps t ws we = false).
      { unfold overlaps. apply andb_false_iff. right.
        destruct (Qle_bool ws (turn_end t)) eqn:E; [|reflexivity].
        apply Qle_bool_iff in E. exfalso. eapply Qlt_not_le; eauto. }
      rewrite Ho. apply Qlt_bool_iff in Hlt. rewrite Hlt.
      apply IH; [lia| |lia]. intros i Hi. apply Hskip. lia.
Qed.

(** With no turn the loop does not run. *)
Lemma while_turns_nil (ws we : Q) (idx : nat) (spk : option string) :
  diarization_list = [] ->
  while_turns diarization_list ws we idx spk = Ok (false, mkScan idx spk).
Proof.
  intros Hnil.
  funelim (while_turns diarization_list ws we idx spk).
  - reflexivity.
  - exfalso. pose proof Hlt as Hlt'. unfold n_speakers in Hlt'.
    rewrite Hnil in Hlt'. simpl in Hlt'. lia.
  - exfalso. pose proof Hlt as Hlt'. unfold n_speakers in Hlt'.
    rewrite Hnil in Hlt'. simpl in Hlt'. lia.
Qed.

End WhileTurns.

(** ** The word loop and the segment loop *)

Section WordLoop.

Variable diarization_list : list Track.
Variable offset_seconds : Z.

Local Abbreviation labeled := (labeled_words diarization_list offset_seconds).
Local Abbreviation words_of := (word_loop diarization_list offset_seconds).

Lemma labeled_words_returns (words : list Word) (st : Scan) :
  exists st' lw, labeled words st = Ok (st', lw).
Proof.
  revert st.
  induction words as [|word rest IH]; intros st; simpl.
  - eauto.
  - destruct (while_turns_returns diarization_list
                (word_start offset_seconds word)
                (word_end offset_seconds word)
                (speaker_idx st) (speaker st)) as (b & st1 & ->).
    simpl. destruct (IH st1) as (st2 & tl & ->). simpl. eauto.
Qed.

(** The aligner's list has one entry per word of the segment, in order. *)
Lemma labeled_words_fst (words : list Word) (st st' : Scan)
    (lw : list (Word * option string)) :
  labeled words st = Ok (st', lw) -> map fst lw = words.
Proof.
  revert st st' lw.
  induction words as [|word rest IH]; intros st st' lw; simpl.
  - intros [= <- <-]. reflexivity.
  - destruct (while_turns _ _ _ _ _) as [[b st1]|]; [simpl|discriminate].
    destruct (labeled_words _ _ rest st1) as [[st2 tl]|] eqn:E;
      [simpl|discriminate].
    intros [= <- <-]. simpl. f_equal. eauto.
Qed.

(** The two accumulators of the word loop hold the raw texts and the
    stripped dicts of the retained words, in order. *)
Lemma word_loop_labeled (words : list Word) (st : Scan)
    (segment_text : list string) (segment_words : list Word) :
  words_of words st segment_text segment_words =
  ('(st', lw) <- labeled words st ;;
   Ok (st', segment_text ++ map raw_text (retained lw),
            segment_words ++ map stored_word (retained lw))).
Proof.
  revert st segment_text segment_words.
  induction words as [|word rest IH]; intros st txt wds; simpl.
  - rewrite !app_nil_r. reflexivity.
  - destruct (while_turns _ _ _ _ _) as [[b st1]|] eqn:E;
      [simpl|reflexivity].
    destruct b; rewrite IH;
      destruct (labeled_words _ _ rest st1) as [[st2 tl]|]; simpl;
      try reflexivity.
    destruct (speaker st1) as [label|] eqn:Es; simpl.
    + rewrite <- !app_assoc. reflexivity.
    + destruct (while_turns_speaker _ _ _ _ _ _ _ E Es); discriminate.
Qed.

(** [speaker], once bound, is bound after every later word; and it is
    bound as soon as a word is retained. *)
Lemma labeled_words_speaker (words : list Word) (st st' : Scan)
    (lw : list (Word * option string)) :
  labeled words st = Ok (st', lw) ->
  speaker st' = None -> speaker st = None /\ retained lw = [].
Proof.
  revert st st' lw.
  induction words as [|word rest IH]; intros st st' lw; simpl.
  - intros [= <- <-]. auto.
  - destruct (while_turns _ _ _ _ _) as [[b st1]|] eqn:E;
      [simpl|discriminate].
    destruct (labeled_words _ _ rest st1) as [[st2 tl]|] eqn:El;
      [simpl|discriminate].
    intros [= <- <-] Hn.
    destruct (IH _ _ _ El Hn) as [Hs1 Htl].
    destruct (while_turns_speaker _ _ _ _ _ _ _ E Hs1) as [Hs ->].
    split; [exact Hs|]. exact Htl.
Qed.

(** The label of a retained final word is the value of [speaker] after
    the loop. *)
Lemma labeled_words_last (words : list Word) (st st' : Scan)
    (lw : list (Word * option string)) (w : Word) (label : string) :
  labeled words st = Ok (st', lw ++ [(w, Some label)]) ->
  speaker st' = Some label.
Proof.
  revert st st' lw.
  induction words as [|word rest IH]; intros st st' lw; simpl.
  - intros [= _ E]. destruct lw; discriminate.
  - destruct (while_turns _ _ _ _ _) as [[b st1]|] eqn:E;
      [simpl|discriminate].
    destruct (labeled_words _ _ rest st1) as [[st2 tl]|] eqn:El;
      [simpl|discriminate].
    intros [= <- Hl]. destruct lw as [|x lw']; simpl in Hl.
    + injection Hl as _ Hb ->.
      apply labeled_words_fst in El as Hf. simpl in Hf. subst rest.
      simpl in El. injection El as <-.
      destruct b; [exact Hb|discriminate].
    + injection Hl as _ ->. eauto.
Qed.

(** What a segment step returns, in terms of the aligner's list. *)
Lemma segment_step_labeled (segment : Segment) (st st' : Scan)
    (o : option LabeledSegment) :
  segment_step diarization_list offset_seconds segment st = Ok (st', o) ->
  exists lw,
    labeled (s_words segment) st = Ok (st', lw) /\
    match o with
    | None => retained lw = []
    | Some l =>
        retained lw <> [] /\
        speaker st' = Some (l_speaker l) /\
        l_text l =
          PyStr.strip (PyStr.sub_double_space
                         (PyStr.join (map raw_text (retained lw)))) /\
        l_words l = map stored_word (retained lw)
    end.
Proof.
  unfold segment_step. rewrite word_loop_labeled.
  destruct (labeled (s_words segment) st) as [[st1 lw]|] eqn:El;
    [simpl|discriminate].
  destruct (retained lw) as [|p r] eqn:Er; simpl.
  - intros [= <- <-]. exists lw. rewrite Er. auto.
  - destruct (speaker st1) as [spk|] eqn:Es; [|discriminate].
    intros [= <- <-]. exists lw. rewrite Er. simpl.
    repeat split; auto. discriminate.
Qed.

(** The [speaker] of line 299 is always bound. *)
Lemma segment_step_returns (segment : Segment) (st : Scan) :
  exists st' o,
    segment_step diarization_list offset_seconds segment st = Ok (st', o).
Proof.
  unfold segment_step. rewrite word_loop_labeled.
  destruct (labeled_words_returns (s_words segment) st) as (st1 & lw & El).
  rewrite El. simpl.
  destruct (retained lw) as [|p r] eqn:Er; simpl; [eauto|].
  destruct (speaker st1) as [spk|] eqn:Es; [eauto|].
  destruct (labeled_words_speaker _ _ _ _ El Es) as [_ Hr]. congruence.
Qed.

Lemma segment_loop_returns (segs : list Segment) (st : Scan)
    (final_segments : list LabeledSegment) :
  exists st' l,
    segment_loop diarization_list offset_seconds segs st final_segments
    = Ok (st', l).
Proof.
  revert st final_segments.
  induction segs as [|segment rest IH]; intros st fs; simpl; [eauto|].
  destruct (segment_step_returns segment st) as (st1 & o & ->). simpl.
  destruct o; apply IH.
Qed.

Lemma merge_returns (segs : list Segment) :
  exists l, merge diarization_list offset_seconds segs = Ok l.
Proof.
  unfold merge.
  destruct (segment_loop_returns segs (mkScan 0 None) [])
    as (st' & l & ->).
  simpl. eauto.
Qed.

(** Every dict of [final_segments] comes from one segment step. *)
Lemma segment_loop_in (segs : list Segment) (st st' : Scan)
    (final_segments l : list LabeledSegment) (x : LabeledSegment) :
  segment_loop diarization_list offset_seconds segs st final_segments
  = Ok (st', l) ->
  In x l ->
  In x final_segments \/
  exists segment st1 st2,
    In segment segs /\
    segment_step diarization_list offset_seconds segment st1
    = Ok (st2, Some x).
Proof.
  revert st final_segments.
  induction segs as [|segment rest IH]; intros st fs; simpl.
  - intros [= <- <-]. auto.
  - destruct (segment_step _ _ segment st) as [[st1 o]|] eqn:E;
      [simpl|discriminate].
    intros Hl Hin. destruct o as [y|].
    + destruct (IH _ _ Hl Hin) as [H|(sg & a & b & Hs & Hst)].
      * apply in_app_or in H as [H|[<-|[]]]; [auto|].
        right. exists segment, st, st1. auto.
      * right. exists sg, a, b. auto.
    + destruct (IH _ _ Hl Hin) as [H|(sg & a & b & Hs & Hst)]; [auto|].
      right. exists sg, a, b. auto.
Qed.

End WordLoop.

(** ** The grouping loop *)

Section GroupingLoop.

Variable group_segments : bool.
Variable fmt : string.

Local Abbreviation sep := (separated group_segments).
Local Abbreviation chain := (all_separated group_segments).

Lemma new_group_shaped (s : LabeledSegment) : shaped fmt (new_group fmt s).
Proof.
  unfold shaped, new_group; simpl.
  destruct (with_text fmt), (with_words fmt); split; congruence.
Qed.

(** Merging finds the [text] key whenever it needs it. *)
Lemma extend_group_shaped (g : Group) (s : LabeledSegment) :
  shaped fmt g ->
  exists g',
    extend_group fmt g s = Ok g' /\ shaped fmt g' /\
    g_start g' = g_start g /\ g_speaker g' = g_speaker g /\
    g_end g' = l_end s.
Proof.
  unfold shaped, extend_group. intros [Ht Hw].
  destruct (with_text fmt) eqn:Et.
  - destruct (g_text g) as [t|]; [|congruence]. simpl.
    eexists; repeat split; simpl; rewrite ?Et; try congruence.
    destruct (with_words fmt); congruence.
  - simpl. eexists; repeat split; simpl; rewrite ?Et; auto.
    destruct (with_words fmt); congruence.
Qed.

Lemma chain_snoc (l : list Group) (g g' : Group) :
  chain (l ++ [g]) -> sep g g' -> chain ((l ++ [g]) ++ [g']).
Proof.
  induction l as [|a l IH]; simpl.
  - intros _ H. auto.
  - intros [Ha Hl] H. split; [|auto].
    destruct l; simpl in *; exact Ha.
Qed.

Lemma chain_last (l : list Group) (g g' : Group) :
  chain (l ++ [g]) ->
  g_start g' = g_start g -> g_speaker g' = g_speaker g ->
  chain (l ++ [g']).
Proof.
  intros H Hs Hp. induction l as [|a l IH]; simpl in *; [auto|].
  destruct H as [Ha Hl]. split; [|auto].
  destruct l; simpl in *; [|exact Ha].
  unfold separated in *. rewrite Hs, Hp. exact Ha.
Qed.

Lemma chain_middle (l1 l2 : list Group) (g1 g2 : Group) :
  chain (l1 ++ g1 :: g2 :: l2) -> sep g1 g2.
Proof.
  induction l1 as [|a l1 IH]; simpl; intros [H Hl]; auto.
Qed.

(** A segment that is not merged starts a group separated from the
    running one. *)
Lemma unmerged_separated (prev s : LabeledSegment) (g : Group) :
  merges group_segments prev s = false ->
  g_speaker g = l_speaker prev -> g_end g = l_end prev ->
  sep g (new_group fmt s).
Proof.
  unfold merges, separated. intros Hm Hsp He. simpl. rewrite Hsp, He.
  apply andb_false_iff in Hm as [Hm|Hm]; [|auto].
  apply andb_false_iff in Hm as [Hm|Hm].
  - right. left. apply String.eqb_neq in Hm. congruence.
  - right. right. apply Qnot_le_lt. intros Hle.
    apply Qle_bool_iff in Hle. congruence.
Qed.

(** The invariant of the loop: the running group has the keys of the
    format, the speaker and the end of the previous segment, and is
    separated from the groups already emitted. *)
Lemma group_loop_invariant (rest : list LabeledSegment)
    (prev : LabeledSegment) (cur : Group) (output : list Group) :
  shaped fmt cur -> Forall (shaped fmt) output ->
  g_speaker cur = l_speaker prev -> g_end cur = l_end prev ->
  chain (output ++ [cur]) ->
  exists out,
    group_loop group_segments fmt prev cur output rest = Ok out /\
    Forall (shaped fmt) out /\ chain out /\
    List.length out
    = (List.length output + S (breaks group_segments prev rest))%nat.
Proof.
  revert prev cur output.
  induction rest as [|s rest IH]; intros prev cur output Hc Ho Hsp He Hch;
    simpl.
  - eexists; repeat split; auto.
    + apply Forall_app; auto.
    + rewrite length_app. simpl. lia.
  - destruct (merges group_segments prev s) eqn:Hm.
    + destruct (extend_group_shaped cur s Hc)
        as (g & -> & Hg & Hs & Hp & Hend). simpl.
      destruct (IH s g output) as (out & E & H1 & H2 & H3); auto.
      * unfold merges in Hm.
        apply andb_true_iff in Hm as [Hm _].
        apply andb_true_iff in Hm as [Hm _].
        apply String.eqb_eq in Hm. congruence.
      * eapply chain_last; eauto.
      * exists out. repeat split; auto.
    + destruct (IH s (new_group fmt s) (output ++ [cur]))
        as (out & E & H1 & H2 & H3); auto.
      * apply new_group_shaped.
      * apply Forall_app; auto.
      * apply chain_snoc; auto. eapply unmerged_separated; eauto.
      * exists out. repeat split; auto.
        rewrite H3, length_app. simpl. lia.
Qed.

Lemma group_returns (final_segments : list LabeledSegment) :
  exists out,
    group group_segments fmt final_segments = Ok out /\
    Forall (shaped fmt) out /\ chain out /\
    List.length out
    = match final_segments with
      | [] => 0%nat
      | s0 :: rest => S (breaks group_segments s0 rest)
      end.
Proof.
  destruct final_segments as [|s0 rest]; simpl.
  - exists []. repeat split; auto.
  - destruct (group_loop_invariant rest s0 (new_group fmt s0) [])
      as (out & E & H1 & H2 & H3); simpl; auto.
    + apply new_group_shaped.
    + exists out. auto.
Qed.

End GroupingLoop.

(** ** Where the words of the output come from *)

Section Coverage.

Variable diarization_list : list Track.
Variable offset_seconds : Z.

(** A retained word was appended at a turn of the list that passed the
    test of line 275 against the word's window. *)
Lemma labeled_words_overlap (words : list Word) (st st' : Scan)
    (lw : list (Word * option string)) (w : Word) (label : string) :
  labeled_words diarization_list offset_seconds words st = Ok (st', lw) ->
  In (w, label) (retained lw) ->
  In w words /\
  exists turn track,
    In (turn, track, label) diarization_list /\
    overlaps turn (word_start offset_seconds w)
             (word_end offset_seconds w) = true.
Proof.
  revert st st' lw.
  induction words as [|word rest IH]; intros st st' lw; simpl.
  - intros [= <- <-] [].
  - destruct (while_turns _ _ _ _ _) as [[b st1]|] eqn:E;
      [simpl|discriminate].
    destruct (labeled_words _ _ rest st1) as [[st2 tl]|] eqn:El;
      [simpl|discriminate].
    intros [= <- <-]. cbn [retained flat_map fst snd].
    fold (retained tl). intros Hin. apply in_app_or in Hin as [Hin|Hin].
    + destruct b; [|destruct Hin].
      destruct (speaker st1) as [lab|] eqn:Es; [|destruct Hin].
      destruct Hin as [[= <- <-]|[]].
      apply while_turns_appended in E
        as (j & turn & track & lab' & _ & Hn & Hov & Hs & _).
      assert (lab' = lab) by congruence. subst lab'.
      split; [auto|]. exists turn, track. split; [|exact Hov].
      eapply nth_error_In; eauto.
    + destruct (IH _ _ _ El Hin) as [Hw Ht]. auto.
Qed.

Lemma merge_words_overlap (segs : list Segment)
    (final_segments : list LabeledSegment) (l : LabeledSegment) (w : Word) :
  merge diarization_list offset_seconds segs = Ok final_segments ->
  In l final_segments -> In w (l_words l) ->
  exists turn track label,
    In (turn, track, label) diarization_list /\
    overlaps turn (word_start offset_seconds w)
             (word_end offset_seconds w) = true.
Proof.
  unfold merge.
  destruct (segment_loop _ _ segs _ _) as [[st' fs]|] eqn:E;
    [simpl|discriminate].
  intros [= <-] Hl Hw.
  destruct (segment_loop_in _ _ _ _ _ _ _ _ E Hl)
    as [[]|(segment & st1 & st2 & _ & Hst)].
  apply segment_step_labeled in Hst as (lw & El & _ & _ & _ & Hws).
  rewrite Hws in Hw. apply in_map_iff in Hw as ([w0 label] & <- & Hin).
  destruct (labeled_words_overlap _ _ _ _ _ _ El Hin)
    as (_ & turn & track & Ht & Hov).
  exists turn, track, label. auto.
Qed.

End Coverage.

Section GroupWords.

Variable group_segments : bool.
Variable fmt : string.
Variable origin : LabeledSegment -> Prop.

Local Abbreviation words_from := (words_from origin).

Lemma new_group_words (s : LabeledSegment) :
  origin s -> words_from (new_group fmt s).
Proof.
  intros Hs ws w. unfold new_group; simpl.
  destruct (with_words fmt); [|discriminate].
  intros [= <-] Hin. eauto.
Qed.

Lemma extend_group_words (g g' : Group) (s : LabeledSegment) :
  extend_group fmt g s = Ok g' ->
  words_from g -> origin s -> words_from g'.
Proof.
  unfold extend_group. intros E Hg Hs ws w.
  destruct (if with_text fmt then _ else _) as [t|]; [simpl in E|discriminate].
  injection E as <-. simpl.
  destruct (with_words fmt); [|apply Hg].
  intros [= <-] Hin. apply in_app_or in Hin as [Hin|Hin]; [|eauto].
  destruct (g_words g) as [gw|] eqn:Eg; [|destruct Hin].
  eapply Hg; eauto.
Qed.

Lemma group_loop_words (rest : list LabeledSegment)
    (prev : LabeledSegment) (cur : Group) (output out : list Group) :
  Forall origin rest -> words_from cur -> Forall words_from output ->
  group_loop group_segments fmt prev cur output rest = Ok out ->
  Forall words_from out.
Proof.
  revert prev cur output.
  induction rest as [|s rest IH]; intros prev cur output Hr Hc Ho; simpl.
  - intros [= <-]. apply Forall_app; auto.
  - inversion Hr as [|? ? Hs Hr']; subst.
    destruct (merges group_segments prev s).
    + destruct (extend_group fmt cur s) as [g|] eqn:E;
        [simpl|discriminate].
      apply IH; auto. eapply extend_group_words; eauto.
    + apply IH; auto.
      * apply new_group_words; auto.
      * apply Forall_app; auto.
Qed.

End GroupWords.

(** The words of the output are words of [final_segments]. *)
Lemma group_words (group_segments : bool) (fmt : string)
    (final_segments : list LabeledSegment) (out : list Group)
    (g : Group) (ws : list Word) (w : Word) :
  group group_segments fmt final_segments = Ok out ->
  In g out -> g_words g = Some ws -> In w ws ->
  exists l, In l final_segments /\ In w (l_words l).
Proof.
  intros E Hg Hws Hw.
  assert (H : Forall (words_from (fun l => In l final_segments)) out).
  { destruct final_segments as [|s0 rest]; simpl in E.
    - injection E as <-. constructor.
    - eapply group_loop_words; [| | |exact E].
      + apply Forall_forall. intros x Hx. right. exact Hx.
      + apply new_group_words. left. reflexivity.
      + constructor. }
  rewrite Forall_forall in H. exact (H g Hg ws w Hws Hw).
Qed.

(** Every word of the output met a turn of the list, with the window the
    code computes from the stored timestamps: the offset once more, and
    the margin. *)
Lemma coverage_with_offset (diarization_list : list Track)
    (offset_seconds : Z) (group_segments : bool) (fmt : string)
    (segs : list Segment) (final_segments : list LabeledSegment)
    (out : list Group) (g : Group) (ws : list Word) (w : Word) :
  merge diarization_list offset_seconds segs = Ok final_segments ->
  group group_segments fmt final_segments = Ok out ->
  In g out -> g_words g = Some ws -> In w ws ->
  exists turn track label,
    In (turn, track, label) diarization_list /\
    turn_start turn <= w_end w + inject_Z offset_seconds + margin /\
    w_start w + inject_Z offset_seconds - margin <= turn_end turn.
Proof.
  intros Em Eg Hg Hws Hw.
  destruct (group_words _ _ _ _ _ _ _ Eg Hg Hws Hw) as (l & Hl & Hwl).
  destruct (merge_words_overlap _ _ _ _ _ _ Em Hl Hwl)
    as (turn & track & label & Ht & Hov).
  exists turn, track, label. split; [exact Ht|].
  unfold overlaps in Hov. apply andb_true_iff in Hov as [H1 H2].
  apply Qle_bool_iff in H1, H2. auto.
Qed.

(** With no offset the window is the word's own interval widened by the
    margin. *)
Lemma coverage_without_offset (diarization_list : list Track)
    (group_segments : bool) (fmt : string)
    (segs : list Segment) (final_segments : list LabeledSegment)
    (out : list Group) (g : Group) (ws : list Word) (w : Word) :
  merge diarization_list 0 (build_segments 0 segs) = Ok final_segments ->
  group group_segments fmt final_segments = Ok out ->
  In g out -> g_words g = Some ws -> In w ws ->
  exists turn track label,
    In (turn, track, label) diarization_list /\
    turn_start turn <= w_end w + margin /\
    w_start w - margin <= turn_end turn.
Proof.
  intros Em Eg Hg Hws Hw.
  destruct (coverage_with_offset _ _ _ _ _ _ _ _ _ _ Em Eg Hg Hws Hw)
    as (turn & track & label & Ht & H1 & H2).
  exists turn, track, label. split; [exact Ht|].
  change (inject_Z 0) with 0 in H1, H2. split; lra.
Qed.

(** ** The cleaning of a text *)

Module CleaningFacts.

Import PyStr.
Local Open Scope string_scope.

Lemma isspace_white (c : ascii) : isspace c = true <-> white c.
Proof.
  unfold isspace, white, whitespace_codes.
  set (n := nat_of_ascii c).
  rewrite !orb_true_iff, !andb_true_iff, !Nat.leb_le, !Nat.eqb_eq.
  simpl. lia.
Qed.

Lemma all_space_white (s : string) :
  all_space s = true -> every_char white s.
Proof.
  induction s as [|c r IH]; simpl; [auto|].
  intros H. apply andb_true_iff in H as [Hc Hr].
  split; [apply isspace_white; exact Hc|auto].
Qed.

Lemma isspace_not_white (c : ascii) : isspace c = false -> ~ white c.
Proof.
  intros H Hw. apply isspace_white in Hw. congruence.
Qed.

(** [strip] does what [trims_to] says. *)
Lemma strip_trims (s : string) : trims_to s (strip s).
Proof.
  destruct (PyStrFacts.strip_spec s) as ((pre & post & E & H1 & H2) & H3 & H4).
  split; [|split].
  - exists pre, post. split; [exact E|]. split; apply all_space_white; auto.
  - intros c r Hc. apply isspace_not_white. eapply H3; eauto.
  - intros r c Hc. apply isspace_not_white. eapply H4; eauto.
Qed.

(** [sub_double_space] does what [collapses] says. *)
Lemma sub_double_space_collapses (s : string) :
  collapses s (sub_double_space s).
Proof.
  assert (H : collapses s (sub_double_space s) /\
              forall c, collapses (String c s) (sub_double_space (String c s))).
  { induction s as [|a r [IH1 IH2]].
    - split; [constructor|]. intros c.
      destruct (ascii_dec c " ") as [->|Hc].
      + apply collapses_other; [right; discriminate|constructor].
      + rewrite PyStrFacts.sub_double_space_other by exact Hc.
        apply collapses_other; [auto|constructor].
    - split; [apply IH2|]. intros c.
      destruct (ascii_dec c " ") as [->|Hc].
      + destruct (ascii_dec a " ") as [->|Ha].
        * rewrite PyStrFacts.sub_double_space_pair.
          apply collapses_two. exact IH1.
        * rewrite PyStrFacts.sub_double_space_single by exact Ha.
          apply collapses_other; [|apply IH2].
          right. intros t [= E]. contradiction.
      + rewrite PyStrFacts.sub_double_space_other by exact Hc.
        apply collapses_other; [auto|apply IH2]. }
  apply H.
Qed.

(** [collapses] leaves one result only. *)
Lemma collapses_unique (s t t' : string) :
  collapses s t -> collapses s t' -> t = t'.
Proof.
  intros H. revert t'. induction H as [|r r' H IH|c r r' Hc H IH]; intros t' H'.
  - inversion H'. reflexivity.
  - inversion H' as [|? ? H2|? ? ? Hc2 H2]; subst.
    + f_equal. auto.
    + exfalso. destruct Hc2 as [Hc2|Hc2]; [congruence|].
      eapply Hc2. reflexivity.
  - inversion H' as [|? ? H2|? ? ? Hc2 H2]; subst.
    + exfalso. destruct Hc as [Hc|Hc]; [congruence|].
      eapply Hc. reflexivity.
    + f_equal. auto.
Qed.

End CleaningFacts.

(** ** The label and the text of a segment *)

(** C1: the label of a segment's dict is meant to be the label of its last
    retained word.  The code takes the value of [speaker] after the word
    loop, and a later word of the segment that is dropped still unpacks a
    turn into it: here the only retained word got SPEAKER_00 and the dict
    is labelled SPEAKER_01. *)
Theorem segment_label_from_dropped_word :
  exists st' l w1 w2,
    segment_step Run.turns_gap 0 (build_segment 0 Run.segment_gap) Run.start
    = Ok (st', Some l) /\
    labeled_words Run.turns_gap 0
      (s_words (build_segment 0 Run.segment_gap)) Run.start
    = Ok (st', [ (w1, Some "SPEAKER_00"%string); (w2, None) ]) /\
    l_words l = [ strip_word w1 ] /\
    l_speaker l = "SPEAKER_01"%string.
Proof.
  do 4 eexists. repeat split; vm_compute; reflexivity.
Qed.

(** C6: the text of a segment's dict is the raw texts of its retained
    words joined without separator, then read from the left with every
    two consecutive spaces replaced by one, then with the whitespace at
    both ends removed; its words are the retained words in order, each
    with the whitespace at both ends of its text removed and its other
    fields unchanged. *)
Theorem labeled_segment_text_and_words
    (diarization_list : list Track) (offset_seconds : Z)
    (segment : Segment) (st st' : Scan) (l : LabeledSegment) :
  segment_step diarization_list offset_seconds segment st
  = Ok (st', Some l) ->
  exists lw,
    labeled_words diarization_list offset_seconds (s_words segment) st
    = Ok (st', lw) /\
    map fst lw = s_words segment /\
    l_text l =
      PyStr.strip (PyStr.sub_double_space
                     (String.concat "" (map raw_text (retained lw)))) /\
    l_words l = map stored_word (retained lw) /\
    map w_word (l_words l)
    = map (fun p => PyStr.strip (raw_text p)) (retained lw) /\
    (exists collapsed,
        collapses
          (String.concat "" (map (fun p => w_word (fst p)) (retained lw)))
          collapsed /\
        trims_to collapsed (l_text l)) /\
    Forall2 (fun p w =>
               trims_to (w_word (fst p)) (w_word w) /\
               w_start w = w_start (fst p) /\
               w_end w = w_end (fst p) /\
               w_probability w = w_probability (fst p))
            (retained lw) (l_words l).
Proof.
  intros H. apply segment_step_labeled in H as (lw & El & _ & _ & Ht & Hw).
  exists lw. repeat split; auto.
  - eapply labeled_words_fst; eauto.
  - rewrite Hw, map_map. reflexivity.
  - exists (PyStr.sub_double_space
              (String.concat "" (map raw_text (retained lw)))).
    split.
    + apply CleaningFacts.sub_double_space_collapses.
    + rewrite Ht. apply CleaningFacts.strip_trims.
  - rewrite Hw. clear. induction (retained lw) as [|p r IH]; simpl.
    + constructor.
    + constructor; [|exact IH]. unfold stored_word. simpl.
      repeat split; try apply CleaningFacts.strip_trims.
Qed.

Lemma labeled_segment_text_and_words_witness :
  (exists collapsed,
      collapses " hi  yo " collapsed /\ trims_to collapsed "hi yo") /\
  Forall2 (fun p w =>
             trims_to (w_word (fst p)) (w_word w) /\
             w_start w = w_start (fst p) /\
             w_end w = w_end (fst p) /\
             w_probability w = w_probability (fst p))
          [ (build_word 0 (Run.word 0 1 " hi "), "SPEAKER_00"%string);
            (build_word 0 (Run.word (26 # 5) 6 " yo "), "SPEAKER_01"%string) ]
          [ mkWord (0 + 0) (1 + 0) "hi" (9 # 10);
            mkWord ((26 # 5) + 0) (6 + 0) "yo" (9 # 10) ].
Proof.
  destruct (labeled_segment_text_and_words
              Run.turns_meet 0 (build_segment 0 Run.segment_spaced) Run.start
              (mkScan 1 (Some "SPEAKER_01"%string))
              (mkLabeled (-1 # 5) (0 + 0 + 0 - 0) (6 + 0 + 0 - 0)
                 "SPEAKER_01" "hi yo"
                 [ mkWord (0 + 0) (1 + 0) "hi" (9 # 10);
                   mkWord ((26 # 5) + 0) (6 + 0) "yo" (9 # 10) ]))
    as (lw & El & _ & _ & _ & _ & Hc & Hf).
  - vm_compute. reflexivity.
  - assert (E : retained lw
                = [ (build_word 0 (Run.word 0 1 " hi "), "SPEAKER_00"%string);
                    (build_word 0 (Run.word (26 # 5) 6 " yo "),
                     "SPEAKER_01"%string) ]).
    { vm_compute in El. injection El as <-. reflexivity. }
    rewrite E in Hc, Hf. split; [exact Hc|exact Hf].
Defined.

(** C7, as stated: the label of a segment's dict is the label of its first
    retained word.  A segment whose two words are retained by two turns is
    labelled with the second turn. *)
Lemma first_word_rule_fails :
  ~ first_word_rule Run.turns_meet 0 (build_segment 0 Run.segment_meet)
      Run.start.
Proof.
  intros H.
  specialize (H (mkScan 1 (Some "SPEAKER_01"%string))
                (mkLabeled (-1 # 5) (0 + 0 + 0 - 0) (6 + 0 + 0 - 0)
                   "SPEAKER_01" "hi yo"
                   (map strip_word
                      (s_words (build_segment 0 Run.segment_meet))))
                [ (build_word 0 (Run.word 0 1 " hi"),
                   Some "SPEAKER_00"%string);
                  (build_word 0 (Run.word (26 # 5) 6 " yo"),
                   Some "SPEAKER_01"%string) ]
                (build_word 0 (Run.word 0 1 " hi")) "SPEAKER_00"%string
                [ (build_word 0 (Run.word (26 # 5) 6 " yo"),
                   "SPEAKER_01"%string) ]).
  discriminate H; vm_compute; reflexivity.
Qed.

(** C7, amended: when the final word of the segment is retained, the label
    of the segment's dict is the label of that word, the last retained
    one (and not the first, unless the two labels agree). *)
Theorem segment_label_of_final_word
    (diarization_list : list Track) (offset_seconds : Z)
    (segment : Segment) (st st' : Scan) (l : LabeledSegment)
    (lw : list (Word * option string)) (w : Word) (label : string) :
  segment_step diarization_list offset_seconds segment st
  = Ok (st', Some l) ->
  labeled_words diarization_list offset_seconds (s_words segment) st
  = Ok (st', lw ++ [ (w, Some label) ]) ->
  l_speaker l = label.
Proof.
  intros H El.
  apply segment_step_labeled in H as (lw' & El' & _ & Hs & _).
  apply labeled_words_last in El. congruence.
Qed.

Lemma segment_label_of_final_word_witness :
  l_speaker (mkLabeled (-1 # 5) (0 + 0 + 0 - 0) (6 + 0 + 0 - 0)
               "SPEAKER_01" "hi yo"
               (map strip_word (s_words (build_segment 0 Run.segment_meet))))
  = "SPEAKER_01"%string.
Proof.
  apply (segment_label_of_final_word
           Run.turns_meet 0 (build_segment 0 Run.segment_meet) Run.start
           (mkScan 1 (Some "SPEAKER_01"%string)) _
           [ (build_word 0 (Run.word 0 1 " hi"), Some "SPEAKER_00"%string) ]
           (build_word 0 (Run.word (26 # 5) 6 " yo")));
    vm_compute; reflexivity.
Defined.

(** ** The output of the grouping *)

(** C3: any two neighbours of the output differ in speaker, or are more
    than 2s apart, or [group_segments] is false; and the number of groups
    is one more than the number of segments for which the condition
    "[group_segments], same speaker as the previous segment, gap at most
    2s" fails, so a segment joins the running group exactly when the
    condition holds. *)
Theorem grouping_correctness
    (group_segments : bool) (fmt : string)
    (final_segments : list LabeledSegment) :
  exists out,
    group group_segments fmt final_segments = Ok out /\
    (forall l1 g1 g2 l2,
        out = l1 ++ g1 :: g2 :: l2 ->
        group_segments = false \/
        g_speaker g1 <> g_speaker g2 \/
        2 < g_start g2 - g_end g1) /\
    List.length out
    = match final_segments with
      | [] => 0%nat
      | s0 :: rest => S (breaks group_segments s0 rest)
      end /\
    (forall prev s,
        merges group_segments prev s = true <->
        group_segments = true /\ l_speaker s = l_speaker prev /\
        l_start s - l_end prev <= 2).
Proof.
  destruct (group_returns group_segments fmt final_segments)
    as (out & E & _ & Hc & Hl).
  exists out. repeat split; auto.
  - intros l1 g1 g2 l2 ->. apply chain_middle in Hc. exact Hc.
  - unfold merges in H. apply andb_true_iff in H as [_ H]. exact H.
  - unfold merges in H. apply andb_true_iff in H as [H _].
    apply andb_true_iff in H as [H _]. apply String.eqb_eq. exact H.
  - unfold merges in H. apply andb_true_iff in H as [H _].
    apply andb_true_iff in H as [_ H]. apply Qle_bool_iff. exact H.
  - intros (Hg & Hs & Hq). unfold merges.
    rewrite Hg, Hs, String.eqb_refl. simpl. rewrite andb_true_r.
    apply Qle_bool_iff. exact Hq.
Qed.

Lemma grouping_correctness_witness :
  group true "both" [ Run.seg_a; Run.seg_b; Run.seg_c ]
  = Ok [ Run.group_ab; Run.group_c ] /\
  2 < g_start Run.group_c - g_end Run.group_ab.
Proof.
  destruct (grouping_correctness true "both"
              [ Run.seg_a; Run.seg_b; Run.seg_c ])
    as (out & E & Hadj & _ & _).
  assert (Hout : out = [ Run.group_ab; Run.group_c ])
    by (vm_compute in E; injection E as <-; reflexivity).
  subst out. split; [exact E|].
  destruct (Hadj [] Run.group_ab Run.group_c [] eq_refl)
    as [H|[H|H]].
  - discriminate H.
  - exfalso. apply H. reflexivity.
  - exact H.
Defined.

(** C5: under [segments_only] no group of the output has a word list, and
    under [words_only] no group has a text, whether the group was started
    from one segment or extended by merging. *)
Theorem output_shape
    (group_segments : bool) (fmt : string)
    (final_segments : list LabeledSegment) (out : list Group) (g : Group) :
  group group_segments fmt final_segments = Ok out ->
  In g out ->
  (fmt = "segments_only"%string -> g_words g = None) /\
  (fmt = "words_only"%string -> g_text g = None).
Proof.
  intros E Hin.
  destruct (group_returns group_segments fmt final_segments)
    as (out' & E' & Hsh & _).
  assert (out' = out) by congruence. subst out'.
  rewrite Forall_forall in Hsh. destruct (Hsh g Hin) as [Ht Hw].
  split; intros ->.
  - exact Hw.
  - exact Ht.
Qed.

Lemma output_shape_witness :
  g_words (mkGroup 0 5 "SPEAKER_00" (-1 # 5) (Some "hi there again"%string)
                   None) = None /\
  g_text (mkGroup 0 5 "SPEAKER_00" (-1 # 5) None
                  (Some (l_words Run.seg_a ++ l_words Run.seg_b))) = None.
Proof.
  split.
  - apply (output_shape true "segments_only"
             [ Run.seg_a; Run.seg_b; Run.seg_c ]
             [ mkGroup 0 5 "SPEAKER_00" (-1 # 5)
                       (Some "hi there again"%string) None;
               mkGroup (15 # 2) 9 "SPEAKER_00" (-1 # 3)
                       (Some "bye"%string) None ]).
    + vm_compute. reflexivity.
    + left. reflexivity.
    + reflexivity.
  - apply (output_shape true "words_only"
             [ Run.seg_a; Run.seg_b; Run.seg_c ]
             [ mkGroup 0 5 "SPEAKER_00" (-1 # 5) None
                       (Some (l_words Run.seg_a ++ l_words Run.seg_b));
               mkGroup (15 # 2) 9 "SPEAKER_00" (-1 # 3) None
                       (Some (l_words Run.seg_c)) ]).
    + vm_compute. reflexivity.
    + left. reflexivity.
    + reflexivity.
Defined.

(** C8: with [group_segments] false the output has one group per segment,
    in order, and each group carries the fields of its segment alone:
    its start, end, speaker and log-probability, its text under
    "segments_only" and "both" and no text otherwise, its words under
    "words_only" and "both" and no words otherwise. *)
Theorem ungrouped_one_group_per_segment
    (fmt : string) (final_segments : list LabeledSegment) :
  group false fmt final_segments = Ok (map (new_group fmt) final_segments) /\
  (forall out,
      group false fmt final_segments = Ok out ->
      List.length out = List.length final_segments /\
      Forall2 (fun s g =>
                 g_start g = l_start s /\
                 g_end g = l_end s /\
                 g_speaker g = l_speaker s /\
                 g_avg_logprob g = l_avg_logprob s /\
                 g_text g
                 = (if (fmt =? "segments_only")%string
                       || (fmt =? "both")%string
                    then Some (l_text s) else None) /\
                 g_words g
                 = (if (fmt =? "words_only")%string || (fmt =? "both")%string
                    then Some (l_words s) else None))
              final_segments out).
Proof.
  assert (H : forall rest prev cur output,
             group_loop false fmt prev cur output rest
             = Ok (output ++ cur :: map (new_group fmt) rest)).
  { induction rest as [|s rest IH]; intros prev cur output; simpl.
    - reflexivity.
    - unfold merges. rewrite andb_false_r, IH, <- app_assoc. reflexivity. }
  assert (E : group false fmt final_segments
              = Ok (map (new_group fmt) final_segments)).
  { destruct final_segments as [|s0 rest]; simpl; [reflexivity|].
    rewrite H. reflexivity. }
  split; [exact E|].
  intros out E'. rewrite E in E'. injection E' as <-.
  split; [apply length_map|].
  clear. induction final_segments as [|s rest IH]; simpl.
  - constructor.
  - constructor; [|exact IH].
    unfold new_group, with_text, with_words, format_in. simpl.
    rewrite !orb_false_r. repeat split.
Qed.

Lemma ungrouped_one_group_per_segment_witness :
  List.length [ mkGroup 0 2 "SPEAKER_00" (-1 # 5) None
                        (Some (l_words Run.seg_a));
                mkGroup (7 # 2) 5 "SPEAKER_00" (-1 # 4) None
                        (Some (l_words Run.seg_b));
                mkGroup (15 # 2) 9 "SPEAKER_00" (-1 # 3) None
                        (Some (l_words Run.seg_c)) ] = 3%nat /\
  g_start (mkGroup (7 # 2) 5 "SPEAKER_00" (-1 # 4) None
                   (Some (l_words Run.seg_b))) = l_start Run.seg_b /\
  g_text (mkGroup (7 # 2) 5 "SPEAKER_00" (-1 # 4) None
                  (Some (l_words Run.seg_b))) = None /\
  g_words (mkGroup (7 # 2) 5 "SPEAKER_00" (-1 # 4) None
                   (Some (l_words Run.seg_b))) = Some (l_words Run.seg_b).
Proof.
  destruct (ungrouped_one_group_per_segment "words_only"
              [ Run.seg_a; Run.seg_b; Run.seg_c ]) as [_ H].
  destruct (H [ mkGroup 0 2 "SPEAKER_00" (-1 # 5) None
                        (Some (l_words Run.seg_a));
                mkGroup (7 # 2) 5 "SPEAKER_00" (-1 # 4) None
                        (Some (l_words Run.seg_b));
                mkGroup (15 # 2) 9 "SPEAKER_00" (-1 # 3) None
                        (Some (l_words Run.seg_c)) ] eq_refl) as [Hl Hf].
  split; [exact Hl|].
  inversion Hf as [|? ? ? ? _ Hf']. inversion Hf' as [|? ? ? ? Hb _].
  destruct Hb as (Hstart & _ & _ & _ & Htext & Hwords). auto.
Defined.

(** ** The pipeline *)

(** Without turns no word is retained and no segment survives. *)
Lemma merge_no_turns (offset_seconds : Z) (segs : list Segment) :
  merge [] offset_seconds segs = Ok [].
Proof.
  assert (Hw : forall words st txt wds,
             word_loop [] offset_seconds words st txt wds
             = Ok (st, txt, wds)).
  { induction words as [|word rest IH]; intros st txt wds; simpl.
    - reflexivity.
    - rewrite while_turns_nil by reflexivity. simpl. rewrite IH.
      destruct st; reflexivity. }
  assert (Hs : forall l st fs,
             segment_loop [] offset_seconds l st fs = Ok (st, fs)).
  { induction l as [|segment rest IH]; intros st fs; simpl.
    - reflexivity.
    - unfold segment_step. rewrite Hw. simpl. apply IH. }
  unfold merge. rewrite Hs. reflexivity.
Qed.

(** C2: every word of the output is meant to have met a turn that overlaps
    its interval widened by the margin.  With [offset_seconds = 10] the
    word at 0s-1s is kept and stored at 10s-11s, although the only turn
    is at 20s-21s: it overlaps neither the stored interval nor the
    original one, widened by 0.1s. *)
Theorem offset_word_without_overlapping_turn :
  exists g w,
    speech_to_text (Run.transcribe_to [ Run.segment_hi ])
                   (Run.diarize_to Run.turns_late)
                   "temp-0.wav" None None 10 true None true "both" false
    = Ok ([ g ], 1%nat, "en"%string) /\
    g_words g = Some [ w ] /\
    w_start w == 10 /\ w_end w == 11 /\
    forall turn track label,
      In (turn, track, label) Run.turns_late ->
      ~ (turn_start turn <= w_end w + margin /\
         w_start w - margin <= turn_end turn) /\
      ~ (turn_start turn <= 1 + margin /\ 0 - margin <= turn_end turn).
Proof.
  do 2 eexists. split; [vm_compute; reflexivity|].
  split; [reflexivity|]. split; [reflexivity|]. split; [reflexivity|].
  intros turn track label [[= <- _ _]|[]].
  split; intros [H _]; vm_compute in H; apply H; reflexivity.
Qed.

(** C4: when no segment survives the merge, [speech_to_text] and
    [predict] return normally, with an empty list of groups, the number
    of distinct speaker labels and the detected language; an empty list
    of turns is such a case, with a speaker count of 0. *)
Theorem empty_alignment_is_not_an_error
    (acquire_audio :
       option string -> option string -> option string -> result string)
    (transcribe :
       string -> option string -> option string -> bool -> bool ->
       result (list Segment * string))
    (diarize : string -> option nat -> result (list Track))
    (file_string file_url file : option string)
    (group_segments : bool) (fmt : string) (num_speakers : option nat)
    (translate : bool) (language prompt : option string)
    (offset_seconds : Z)
    (wav : string) (segs : list Segment) (detected_language : string)
    (turns : list Track) :
  acquire_audio file_string file_url file = Ok wav ->
  transcribe wav prompt language translate true
  = Ok (segs, detected_language) ->
  diarize wav num_speakers = Ok turns ->
  (merge turns offset_seconds (build_segments offset_seconds segs) = Ok [] ->
   speech_to_text transcribe diarize wav num_speakers prompt offset_seconds
                  group_segments language true fmt translate
   = Ok ([], detected_num_speakers turns, detected_language) /\
   predict acquire_audio transcribe diarize file_string file_url file
           group_segments fmt num_speakers translate language prompt
           offset_seconds
   = Ok (mkOutput [] detected_language (detected_num_speakers turns))) /\
  (turns = [] ->
   predict acquire_audio transcribe diarize file_string file_url file
           group_segments fmt num_speakers translate language prompt
           offset_seconds
   = Ok (mkOutput [] detected_language 0)).
Proof.
  intros Ha Ht Hd.
  assert (H : merge turns offset_seconds (build_segments offset_seconds segs)
              = Ok [] ->
              speech_to_text transcribe diarize wav num_speakers prompt
                             offset_seconds group_segments language true fmt
                             translate
              = Ok ([], detected_num_speakers turns, detected_language)).
  { intros Hm. unfold speech_to_text. rewrite Ht. simpl.
    rewrite Hd. simpl. rewrite Hm. reflexivity. }
  assert (H' : merge turns offset_seconds
                 (build_segments offset_seconds segs) = Ok [] ->
               predict acquire_audio transcribe diarize file_string file_url
                       file group_segments fmt num_speakers translate
                       language prompt offset_seconds
               = Ok (mkOutput [] detected_language
                              (detected_num_speakers turns))).
  { intros Hm. unfold predict. rewrite Ha. simpl. rewrite (H Hm).
    reflexivity. }
  split; [auto|].
  intros ->. apply H'. apply merge_no_turns.
Qed.

Lemma empty_alignment_is_not_an_error_witness :
  predict Run.acquire_ok (Run.transcribe_to [ Run.segment_hi ])
          (Run.diarize_to Run.turns_late)
          None (Some "http://host/a.mp3"%string) None true "both" None false
          None None 0
  = Ok (mkOutput [] "en" 1) /\
  predict Run.acquire_ok (Run.transcribe_to [ Run.segment_hi ])
          (Run.diarize_to [])
          None (Some "http://host/a.mp3"%string) None true "both" None false
          None None 0
  = Ok (mkOutput [] "en" 0).
Proof.
  split.
  - apply (empty_alignment_is_not_an_error
             Run.acquire_ok (Run.transcribe_to [ Run.segment_hi ])
             (Run.diarize_to Run.turns_late)
             None (Some "http://host/a.mp3"%string) None true "both" None
             false None None 0 "temp-0.wav" [ Run.segment_hi ] "en"
             Run.turns_late); reflexivity.
  - apply (empty_alignment_is_not_an_error
             Run.acquire_ok (Run.transcribe_to [ Run.segment_hi ])
             (Run.diarize_to [])
             None (Some "http://host/a.mp3"%string) None true "both" None
             false None None 0 "temp-0.wav" [ Run.segment_hi ] "en" []);
      reflexivity.
Defined.

(** C9: the test of the while loop compares a turn, which carries no
    offset, with the word's timestamps plus twice [offset_seconds] and the
    margin; a word is appended exactly when the loop reaches a turn that
    passes this test; and the same word against the same turn is retained
    with no offset and dropped with an offset of 10s. *)
Theorem offset_counted_twice :
  (forall (turn : Turn) (offset_seconds : Z) (w : Word),
      overlaps turn
               (word_start offset_seconds (build_word offset_seconds w))
               (word_end offset_seconds (build_word offset_seconds w))
      = true <->
      turn_start turn <= w_end w + 2 * inject_Z offset_seconds + margin /\
      w_start w + 2 * inject_Z offset_seconds - margin <= turn_end turn) /\
  (forall (turns : list Track) (offset_seconds : Z) (w : Word)
          (idx : nat) (spk : option string),
      (exists st,
          while_turns turns
            (word_start offset_seconds (build_word offset_seconds w))
            (word_end offset_seconds (build_word offset_seconds w))
            idx spk = Ok (true, st)) <->
      exists j,
        stops_at turns
          (word_start offset_seconds (build_word offset_seconds w))
          (word_end offset_seconds (build_word offset_seconds w)) idx j) /\
  (exists l,
      merge Run.turns_early 0 (build_segments 0 [ Run.segment_hi ])
      = Ok [ l ] /\
      l_speaker l = "SPEAKER_00"%string /\
      map w_word (l_words l) = [ "hi"%string ]) /\
  merge Run.turns_early 10 (build_segments 10 [ Run.segment_hi ]) = Ok [].
Proof.
  split; [|split; [|split]].
  - intros turn off w. unfold overlaps, word_start, word_end, build_word.
    simpl. rewrite andb_true_iff, !Qle_bool_iff. split; intros [H1 H2];
      split; lra.
  - intros turns off w idx spk. apply while_turns_appended_iff.
  - eexists. split; [vm_compute; reflexivity|]. split; reflexivity.
  - vm_compute. reflexivity.
Qed.

(** C10: [Notte.process] returns the triple (0, "[]", "") whenever the
    setup, the prediction or the serialization raises, and otherwise the
    speaker count, the serialized segments and the language of the
    prediction; it never raises itself. *)
Theorem process_catches_every_exception
    (load_models : string -> result unit)
    (acquire_audio :
       option string -> option string -> option string -> result string)
    (transcribe :
       string -> option string -> option string -> bool -> bool ->
       result (list Segment * string))
    (diarize : string -> option nat -> result (list Track))
    (json_dumps : list Group -> result string)
    (audio_url token : string) :
  let run_setup := setup load_models (mkPredictor None) (Some token) in
  let run_predict :=
    predict acquire_audio transcribe diarize None (Some audio_url) None
            true "both" None false None None 0 in
  let returned :=
    process load_models acquire_audio transcribe diarize json_dumps
            audio_url token in
  (forall e, run_setup = Raise e -> returned = (0%nat, "[]", "")%string) /\
  (forall p e,
      run_setup = Ok p -> run_predict = Raise e ->
      returned = (0%nat, "[]", "")%string) /\
  (forall p out e,
      run_setup = Ok p -> run_predict = Ok out ->
      json_dumps (segments out) = Raise e ->
      returned = (0%nat, "[]", "")%string) /\
  (forall p out segments_json,
      run_setup = Ok p -> run_predict = Ok out ->
      json_dumps (segments out) = Ok segments_json ->
      returned = (num_speakers out, segments_json, language out)) /\
  (token = ""%string -> returned = (0%nat, "[]", "")%string).
Proof.
  intros run_setup run_predict returned.
  subst returned. unfold process, process_try.
  fold run_setup. fold run_predict.
  repeat split.
  - intros e ->. reflexivity.
  - intros p e -> ->. reflexivity.
  - intros p out e -> ->. simpl. intros ->. reflexivity.
  - intros p out js -> ->. simpl. intros ->. reflexivity.
  - intros ->. reflexivity.
Qed.

Lemma process_catches_every_exception_witness :
  process Run.load_ok Run.acquire_ok (Run.transcribe_to [ Run.segment_hi ])
          (Run.diarize_to Run.turns_early) Run.dumps_fixed
          "http://host/a.mp3" "hf_token"
  = (1%nat, "[...]", "en")%string /\
  process Run.load_ok Run.acquire_ok (fun _ _ _ _ _ => Run.failing)
          (Run.diarize_to Run.turns_early) Run.dumps_fixed
          "http://host/a.mp3" "hf_token"
  = (0%nat, "[]", "")%string.
Proof.
  split.
  - destruct (process_catches_every_exception
                Run.load_ok Run.acquire_ok
                (Run.transcribe_to [ Run.segment_hi ])
                (Run.diarize_to Run.turns_early) Run.dumps_fixed
                "http://host/a.mp3" "hf_token")
      as (_ & _ & _ & H & _).
    apply (H (mkPredictor (Some "hf_token"%string))
             (mkOutput
                [ new_group "both"
                    (mkLabeled (-1 # 5) (0 + 0 + 0 - 0) (1 + 0 + 0 - 0)
                       "SPEAKER_00" "hi" [ mkWord (0 + 0) (1 + 0) "hi" (9 # 10) ]) ]
                "en" 1)); vm_compute; reflexivity.
  - destruct (process_catches_every_exception
                Run.load_ok Run.acquire_ok (fun _ _ _ _ _ => Run.failing)
                (Run.diarize_to Run.turns_early) Run.dumps_fixed
                "http://host/a.mp3" "hf_token")
      as (_ & H & _).
    apply (H (mkPredictor (Some "hf_token"%string))
             (RuntimeError "Error Running inference with local model"
                           (ExternalError "engine")));
      vm_compute; reflexivity.
Defined.

(** ** The examples of the specification *)

(** Turns A on 0s-5s and B on 5s-10s; the words at 0s-1s and 1s-2s get A
    and the word at 5.2s-6s gets B; the two segments are not merged. *)
Example two_speakers_two_groups :
  exists g1 g2,
    speech_to_text
      (Run.transcribe_to [ Run.segment_hi_there; Run.segment_yo ])
      (Run.diarize_to Run.turns_meet)
      "temp-0.wav" None None 0 true None true "both" false
    = Ok ([ g1; g2 ], 2%nat, "en"%string) /\
    g_speaker g1 = "SPEAKER_00"%string /\
    g_text g1 = Some "hi there"%string /\
    g_speaker g2 = "SPEAKER_01"%string /\
    g_text g2 = Some "yo"%string.
Proof.
  do 2 eexists. split; [vm_compute; reflexivity|]. repeat split.
Qed.

(** A prediction whose engine fails raises [RuntimeError] with the cause. *)
Example predict_wraps_the_cause :
  predict Run.acquire_ok (fun _ _ _ _ _ => Run.failing)
          (Run.diarize_to Run.turns_meet)
          None (Some "http://host/a.mp3"%string) None true "both" None false
          None None 0
  = Raise (RuntimeError "Error Running inference with local model"
                        (ExternalError "engine")).
Proof. reflexivity. Qed.

(** * Further properties of the merge *)

(** ** The cursor *)

Section Cursor.

Variable diarization_list : list Track.
Variable offset_seconds : Z.

Local Abbreviation n := (n_speakers diarization_list).

(** The while loop moves the cursor forward only, and not past the end of
    the list. *)
Lemma while_turns_cursor (ws we : Q) (idx : nat) (spk : option string)
    (appended : bool) (st : Scan) :
  while_turns diarization_list ws we idx spk = Ok (appended, st) ->
  (idx <= speaker_idx st)%nat /\
  ((idx <= n)%nat -> (speaker_idx st <= n)%nat).
Proof.
  funelim (while_turns diarization_list ws we idx spk); intros E.
  - injection E as <- <-. simpl. lia.
  - destruct (overlaps turn ws we).
    + injection E as <- <-. simpl.
      destruct (Qle_bool (turn_end turn) we); lia.
    + destruct (Qlt_bool (turn_end turn) ws).
      * destruct (H _ _ E). lia.
      * injection E as <- <-. simpl. lia.
  - discriminate.
Qed.

Lemma word_loop_cursor (words : list Word) (st st' : Scan)
    (txt txt' : list string) (wds wds' : list Word) :
  word_loop diarization_list offset_seconds words st txt wds
  = Ok (st', txt', wds') ->
  (speaker_idx st <= speaker_idx st')%nat /\
  ((speaker_idx st <= n)%nat -> (speaker_idx st' <= n)%nat).
Proof.
  revert st txt wds.
  induction words as [|word rest IH]; intros st txt wds; simpl.
  - intros [= <- _ _]. lia.
  - destruct (while_turns _ _ _ _ _) as [[b st1]|] eqn:E;
      [simpl|discriminate].
    apply while_turns_cursor in E as [H1 H2].
    destruct b; intros Hl; apply IH in Hl as [H3 H4]; lia.
Qed.

Lemma segment_step_cursor (segment : Segment) (st st' : Scan)
    (o : option LabeledSegment) :
  segment_step diarization_list offset_seconds segment st = Ok (st', o) ->
  (speaker_idx st <= speaker_idx st')%nat /\
  ((speaker_idx st <= n)%nat -> (speaker_idx st' <= n)%nat).
Proof.
  unfold segment_step.
  destruct (word_loop _ _ _ st [] []) as [[[st1 txt] wds]|] eqn:E;
    [simpl|discriminate].
  apply word_loop_cursor in E.
  destruct txt; [intros [= <- _]; exact E|].
  destruct (speaker st1); [|discriminate].
  intros [= <- _]. exact E.
Qed.

End Cursor.

(** X1: over the whole segment loop the cursor into the turns never moves
    back and never leaves the list, and [final_segments] only grows, by
    at most one dict per segment. *)
Theorem cursor_is_monotone
    (diarization_list : list Track) (offset_seconds : Z)
    (segs : list Segment) (st st' : Scan)
    (final_segments l : list LabeledSegment) :
  segment_loop diarization_list offset_seconds segs st final_segments
  = Ok (st', l) ->
  (speaker_idx st <= speaker_idx st')%nat /\
  ((speaker_idx st <= n_speakers diarization_list)%nat ->
   (speaker_idx st' <= n_speakers diarization_list)%nat) /\
  exists added,
    l = final_segments ++ added /\
    (List.length added <= List.length segs)%nat.
Proof.
  revert st final_segments.
  induction segs as [|segment rest IH]; intros st fs; simpl.
  - intros [= <- <-]. repeat split; auto. exists []. rewrite app_nil_r. auto.
  - destruct (segment_step _ _ segment st) as [[st1 o]|] eqn:E;
      [simpl|discriminate].
    apply segment_step_cursor in E as [H1 H2].
    destruct o as [x|]; intros Hl;
      apply IH in Hl as (H3 & H4 & added & -> & Hlen).
    + repeat split; [lia|auto|].
      exists (x :: added). rewrite <- app_assoc. simpl. split; [auto|lia].
    + repeat split; [lia|auto|].
      exists added. split; [auto|lia].
Qed.

Lemma cursor_is_monotone_witness :
  (0 <= 1)%nat /\ (1 <= n_speakers Run.turns_meet)%nat.
Proof.
  destruct (cursor_is_monotone Run.turns_meet 0
              (build_segments 0 [ Run.segment_hi_there; Run.segment_yo ])
              Run.start (mkScan 1 (Some "SPEAKER_01"%string)) []
              [ mkLabeled (-1 # 5) (0 + 0 + 0 - 0) (2 + 0 + 0 - 0)
                  "SPEAKER_00" "hi there"
                  [ mkWord (0 + 0) (1 + 0) "hi" (9 # 10);
                    mkWord (1 + 0) (2 + 0) "there" (9 # 10) ];
                mkLabeled (-1 # 4) ((26 # 5) + 0 + 0 - 0) (6 + 0 + 0 - 0)
                  "SPEAKER_01" "yo"
                  [ mkWord ((26 # 5) + 0) (6 + 0) "yo" (9 # 10) ] ])
    as (H1 & H2 & _).
  - vm_compute. reflexivity.
  - split; [exact H1|]. apply H2. simpl. lia.
Defined.

(** X2: when the while loop drops a word, every turn it stepped over ends
    before the word's window, and the cursor is past the last turn or on
    a turn that begins after the window; that turn's label is in
    [speaker]. *)
Theorem dropped_word_leaves_cursor
    (diarization_list : list Track) (ws we : Q) (idx : nat)
    (spk : option string) (st : Scan) :
  while_turns diarization_list ws we idx spk = Ok (false, st) ->
  (forall i, (idx <= i < speaker_idx st)%nat ->
     exists turn track label,
       nth_error diarization_list i = Some (turn, track, label) /\
       turn_end turn < ws) /\
  ((n_speakers diarization_list <= speaker_idx st)%nat \/
   exists turn track label,
     nth_error diarization_list (speaker_idx st)
     = Some (turn, track, label) /\
     we < turn_start turn /\ ws <= turn_end turn /\
     speaker st = Some label).
Proof.
  funelim (while_turns diarization_list ws we idx spk); intros E.
  - injection E as <-. simpl. split; [intros i Hi; lia|]. left. lia.
  - destruct (overlaps turn ws we) eqn:Ho; [discriminate|].
    destruct (Qlt_bool (turn_end turn) ws) eqn:Hl.
    + destruct (H st E) as [Hskip Hend]. split; [|exact Hend].
      intros i Hi. destruct (Nat.eq_dec i idx) as [->|Hne].
      * exists turn, s0, label. split; [exact Heq|].
        apply Qlt_bool_iff. exact Hl.
      * apply Hskip. lia.
    + injection E as <-. simpl. split; [intros i Hi; lia|]. right.
      exists turn, s0, label. split; [exact Heq|].
      assert (Hws : ws <= turn_end turn).
      { apply Qnot_lt_le. intros Hlt'. apply Qlt_bool_iff in Hlt'.
        congruence. }
      split; [|auto].
      apply Qnot_le_lt. intros Hle. unfold overlaps in Ho.
      apply Qle_bool_iff in Hle, Hws. rewrite Hle, Hws in Ho.
      discriminate.
  - discriminate.
Qed.

Lemma dropped_word_leaves_cursor_witness :
  exists turn track label,
    nth_error Run.turns_gap 1 = Some (turn, track, label) /\
    21 # 10 < turn_start turn /\ 9 # 10 <= turn_end turn /\
    Some "SPEAKER_01"%string = Some label.
Proof.
  destruct (dropped_word_leaves_cursor Run.turns_gap (9 # 10) (21 # 10) 1
              (Some "SPEAKER_00"%string)
              (mkScan 1 (Some "SPEAKER_01"%string)))
    as [_ [H|H]].
  - vm_compute. reflexivity.
  - exfalso. vm_compute in H. lia.
  - exact H.
Defined.

(** What [speech_to_text] raises was raised by a function it is given:
    the merge never reads [speaker] unbound, never indexes past the
    turns, and the grouping never misses a key. *)
Lemma speech_to_text_plain_raises
    (transcribe :
       string -> option string -> option string -> bool -> bool ->
       result (list Segment * string))
    (diarize : string -> option nat -> result (list Track))
    (wav : string) (num_speakers : option nat) (prompt : option string)
    (offset_seconds : Z) (group_segments : bool) (language : option string)
    (word_timestamps : bool) (fmt : string) (translate : bool)
    (e : exception) :
  speech_to_text transcribe diarize wav num_speakers prompt offset_seconds
                 group_segments language word_timestamps fmt translate
  = Raise e ->
  transcribe wav prompt language translate word_timestamps = Raise e \/
  diarize wav num_speakers = Raise e.
Proof.
  unfold speech_to_text.
  destruct (transcribe _ _ _ _ _) as [[segs tl]|e1]; simpl;
    [|intros [= <-]; auto].
  destruct (diarize _ _) as [turns|e2]; simpl; [|intros [= <-]; auto].
  destruct (merge_returns turns offset_seconds
              (build_segments offset_seconds segs)) as (fs & ->). simpl.
  destruct (group_returns group_segments fmt fs) as (out & -> & _).
  discriminate.
Qed.

(** X4: a segment's dict carries the average log-probability of its
    segment and, as start and end, the values the code computes from the
    segment's own start and end alone, whichever of its words were
    retained: the offset added twice and subtracted once.  With no
    offset these are the start and the end of the segment. *)
Theorem labeled_segment_keeps_segment_times
    (diarization_list : list Track) (offset_seconds : Z)
    (s : Segment) (st st' : Scan) (l : LabeledSegment) :
  segment_step diarization_list offset_seconds
               (build_segment offset_seconds s) st = Ok (st', Some l) ->
  l_avg_logprob l = s_avg_logprob s /\
  l_start l
  = s_start s + inject_Z offset_seconds + inject_Z offset_seconds
    - inject_Z offset_seconds /\
  l_end l
  = s_end s + inject_Z offset_seconds + inject_Z offset_seconds
    - inject_Z offset_seconds /\
  (offset_seconds = 0%Z ->
   l_start l == s_start s /\ l_end l == s_end s).
Proof.
  unfold segment_step.
  destruct (word_loop _ _ _ st [] []) as [[[st1 txt] wds]|];
    [simpl|discriminate].
  destruct txt; [discriminate|].
  destruct (speaker st1); [|discriminate].
  intros [= _ <-]. simpl. repeat split; try reflexivity.
  - subst offset_seconds. change (inject_Z 0) with 0. ring.
  - subst offset_seconds. change (inject_Z 0) with 0. ring.
Qed.

Lemma labeled_segment_keeps_segment_times_witness :
  -1 # 4 = s_avg_logprob Run.segment_yo /\
  (26 # 5) + 0 + 0 - 0 == s_start Run.segment_yo /\
  6 + 0 + 0 - 0 == s_end Run.segment_yo.
Proof.
  destruct (labeled_segment_keeps_segment_times
              Run.turns_meet 0 Run.segment_yo
              (mkScan 0 (Some "SPEAKER_00"%string))
              (mkScan 1 (Some "SPEAKER_01"%string))
              (mkLabeled (-1 # 4) ((26 # 5) + 0 + 0 - 0) (6 + 0 + 0 - 0)
                 "SPEAKER_01" "yo"
                 [ mkWord ((26 # 5) + 0) (6 + 0) "yo" (9 # 10) ]))
    as (Ha & _ & _ & H0).
  - vm_compute. reflexivity.
  - destruct (H0 eq_refl) as [Hs He]. auto.
Defined.

(** ** The groups as runs of segments *)

Lemma append_assoc (a b c : string) :
  ((a ++ b) ++ c = a ++ (b ++ c))%string.
Proof.
  induction a as [|x a IH]; simpl; [reflexivity|]. rewrite IH. reflexivity.
Qed.

Lemma concat_snoc (sep x y : string) (l : list string) :
  String.concat sep ((x :: l) ++ [y])
  = (String.concat sep (x :: l) ++ sep ++ y)%string.
Proof.
  revert x. induction l as [|z l IH]; intros x.
  - reflexivity.
  - change (String.concat sep ((x :: z :: l) ++ [y]))
      with (x ++ sep ++ String.concat sep ((z :: l) ++ [y]))%string.
    rewrite IH.
    change (String.concat sep (x :: z :: l))
      with (x ++ sep ++ String.concat sep (z :: l))%string.
    rewrite !append_assoc. reflexivity.
Qed.

Section Runs.

Variable group_segments : bool.
Variable fmt : string.

Lemma extend_run (s0 s : LabeledSegment) (done : list LabeledSegment) :
  extend_group fmt (run_group fmt (s0, done)) s
  = Ok (run_group fmt (s0, done ++ [s])).
Proof.
  assert (Ht : String.concat " " (map l_text (s0 :: done ++ [s]))
               = (String.concat " " (map l_text (s0 :: done))
                  ++ " " ++ l_text s)%string).
  { rewrite app_comm_cons, map_app. apply concat_snoc. }
  assert (Hw : flat_map l_words (s0 :: done ++ [s])
               = flat_map l_words (s0 :: done) ++ l_words s).
  { rewrite app_comm_cons, flat_map_app. simpl. rewrite app_nil_r.
    reflexivity. }
  unfold extend_group, run_group, run_segments.
  cbn [fst snd g_start g_end g_speaker g_avg_logprob g_text g_words].
  rewrite last_last, Ht, Hw.
  destruct (with_text fmt), (with_words fmt); reflexivity.
Qed.

Lemma last_cons (A : Type) (l : list A) (d a : A) :
  last (d :: l) a = last l d.
Proof.
  revert d a. induction l as [|x l IH]; intros d a; [reflexivity|].
  change (last (d :: x :: l) a) with (last (x :: l) a).
  rewrite (IH x a), (IH x d). reflexivity.
Qed.

Lemma all_merge_snoc (s0 s : LabeledSegment) (done : list LabeledSegment) :
  all_merge group_segments s0 done ->
  merges group_segments (last done s0) s = true ->
  all_merge group_segments s0 (done ++ [s]).
Proof.
  revert s0. induction done as [|d done IH]; intros s0; simpl app.
  - simpl. auto.
  - intros [H1 H2] Hm. split; [exact H1|]. apply IH; [exact H2|].
    rewrite last_cons in Hm. exact Hm.
Qed.

Lemma new_group_run (s : LabeledSegment) :
  new_group fmt s = run_group fmt (s, []).
Proof.
  unfold new_group, run_group, run_segments. simpl.
  rewrite app_nil_r. reflexivity.
Qed.

(** The loop, from a running group that is the group of the run
    [s0 :: done], emits the groups of a partition of the segments into
    runs. *)
Lemma group_loop_runs (rest : list LabeledSegment)
    (s0 : LabeledSegment) (done : list LabeledSegment)
    (output : list Group) :
  all_merge group_segments s0 done ->
  exists runs,
    group_loop group_segments fmt (last done s0) (run_group fmt (s0, done))
               output rest
    = Ok (output ++ map (run_group fmt) runs) /\
    flat_map run_segments runs = (s0 :: done) ++ rest /\
    Forall (fun r => all_merge group_segments (fst r) (snd r)) runs /\
    runs <> [].
Proof.
  revert s0 done output.
  induction rest as [|s rest IH]; intros s0 done output Hm; simpl.
  - exists [ (s0, done) ]. simpl. rewrite !app_nil_r.
    repeat split; auto. discriminate.
  - destruct (merges group_segments (last done s0) s) eqn:E.
    + rewrite extend_run. simpl.
      destruct (IH s0 (done ++ [s]) output) as (runs & E1 & E2 & E3 & E4).
      { apply all_merge_snoc; auto. }
      rewrite last_last in E1. exists runs. rewrite E1, E2.
      repeat split; auto. simpl. rewrite <- app_assoc. reflexivity.
    + destruct (IH s [] (output ++ [run_group fmt (s0, done)]))
        as (runs & E1 & E2 & E3 & E4); [exact I|].
      exists ((s0, done) :: runs). simpl in E1.
      rewrite new_group_run.
      repeat split.
      * etransitivity; [exact E1|]. rewrite <- app_assoc. reflexivity.
      * change (flat_map run_segments ((s0, done) :: runs))
          with ((s0 :: done) ++ flat_map run_segments runs).
        rewrite E2. reflexivity.
      * constructor; auto.
      * discriminate.
Qed.

Lemma group_runs (final_segments : list LabeledSegment) :
  exists runs,
    group group_segments fmt final_segments
    = Ok (map (run_group fmt) runs) /\
    flat_map run_segments runs = final_segments /\
    Forall (fun r => all_merge group_segments (fst r) (snd r)) runs.
Proof.
  destruct final_segments as [|s0 rest]; simpl.
  - exists []. repeat split; auto.
  - destruct (group_loop_runs rest s0 [] [] I) as (runs & E1 & E2 & E3 & _).
    exists runs. rewrite new_group_run. auto.
Qed.

End Runs.

(** X5: the output of the grouping is the list of groups of a partition
    of [final_segments] into consecutive runs, within each of which every
    segment passes the test of line 338 against its predecessor: a group
    has the start, speaker and log-probability of the first segment of
    its run, the end of the last, the texts joined by single spaces and
    the word lists appended. *)
Theorem groups_are_runs
    (group_segments : bool) (fmt : string)
    (final_segments : list LabeledSegment) :
  exists runs,
    group group_segments fmt final_segments
    = Ok (map (run_group fmt) runs) /\
    flat_map run_segments runs = final_segments /\
    Forall (fun r => all_merge group_segments (fst r) (snd r)) runs.
Proof. apply group_runs. Qed.

Lemma flat_map_flat_map (A B C : Type) (f : A -> list B) (g : B -> list C)
    (l : list A) :
  flat_map g (flat_map f l) = flat_map (fun a => flat_map g (f a)) l.
Proof.
  induction l as [|a l IH]; simpl; [reflexivity|].
  rewrite flat_map_app, IH. reflexivity.
Qed.

(** X6: under a format with word lists the grouping neither loses nor
    repeats nor reorders a word: the word lists of the groups, appended,
    are the word lists of the segments, appended. *)
Theorem grouping_keeps_every_word
    (group_segments : bool) (fmt : string)
    (final_segments : list LabeledSegment) (out : list Group) :
  with_words fmt = true ->
  group group_segments fmt final_segments = Ok out ->
  flat_map words_of_group out = flat_map l_words final_segments.
Proof.
  intros Hw E.
  destruct (group_runs group_segments fmt final_segments)
    as (runs & E' & <- & _).
  rewrite E' in E. injection E as <-.
  rewrite flat_map_flat_map, flat_map_concat_map, map_map,
    <- flat_map_concat_map.
  apply flat_map_ext. intros r. unfold words_of_group, run_group. simpl.
  rewrite Hw. reflexivity.
Qed.

Lemma grouping_keeps_every_word_witness :
  flat_map words_of_group [ Run.group_ab; Run.group_c ]
  = flat_map l_words [ Run.seg_a; Run.seg_b; Run.seg_c ].
Proof.
  apply (grouping_keeps_every_word true "both"); reflexivity.
Defined.

Lemma StronglySorted_app_r (A : Type) (R : A -> A -> Prop) (l1 l2 : list A) :
  StronglySorted R (l1 ++ l2) -> StronglySorted R l2.
Proof.
  induction l1 as [|a l1 IH]; simpl; [auto|].
  intros H. inversion H; auto.
Qed.

Lemma run_starts_sorted (R : Q -> Q -> Prop) (runs : list Run_of_segments) :
  StronglySorted R (map l_start (flat_map run_segments runs)) ->
  StronglySorted R (map (fun r => l_start (fst r)) runs).
Proof.
  induction runs as [|[s0 done] runs IH]; simpl; [constructor|].
  intros H. inversion H as [|? ? Hs Hf]; subst. constructor.
  - apply IH. rewrite map_app in Hs.
    eapply StronglySorted_app_r; eauto.
  - rewrite Forall_forall in *. intros x Hx.
    apply in_map_iff in Hx as ([s1 d1] & <- & Hin). apply Hf.
    rewrite map_app. apply in_or_app. right. apply in_map.
    apply in_flat_map. exists (s1, d1). split; [exact Hin|]. left.
    reflexivity.
Qed.

(** X7: the starts of the groups are starts of segments, in the same
    order: when the segments are sorted by start, so are the groups. *)
Theorem groups_sorted_by_start
    (group_segments : bool) (fmt : string)
    (final_segments : list LabeledSegment) (out : list Group) :
  StronglySorted Qle (map l_start final_segments) ->
  group group_segments fmt final_segments = Ok out ->
  StronglySorted Qle (map g_start out).
Proof.
  intros Hs E.
  destruct (group_runs group_segments fmt final_segments)
    as (runs & E' & <- & _).
  rewrite E' in E. injection E as <-.
  rewrite map_map. apply run_starts_sorted. exact Hs.
Qed.

Lemma groups_sorted_by_start_witness :
  StronglySorted Qle (map g_start [ Run.group_ab; Run.group_c ]).
Proof.
  apply (groups_sorted_by_start true "both"
           [ Run.seg_a; Run.seg_b; Run.seg_c ]).
  - repeat constructor; discriminate.
  - reflexivity.
Defined.

(** X8: under "both" every group has a text and a word list; under a
    format that is none of "segments_only", "words_only" and "both" the
    grouping raises nothing and every group has neither. *)
Theorem keys_of_other_formats
    (group_segments : bool) (fmt : string)
    (final_segments : list LabeledSegment) (out : list Group) (g : Group) :
  group group_segments fmt final_segments = Ok out ->
  In g out ->
  (fmt = "both"%string -> g_text g <> None /\ g_words g <> None) /\
  (fmt <> "segments_only"%string -> fmt <> "words_only"%string ->
   fmt <> "both"%string ->
   g_text g = None /\ g_words g = None).
Proof.
  intros E Hin.
  destruct (group_returns group_segments fmt final_segments)
    as (out' & E' & Hsh & _).
  assert (out' = out) by congruence. subst out'.
  rewrite Forall_forall in Hsh. destruct (Hsh g Hin) as [Ht Hw].
  split.
  - intros ->. auto.
  - intros H1 H2 H3. apply String.eqb_neq in H1, H2, H3.
    unfold with_text, with_words, format_in in Ht, Hw. simpl in Ht, Hw.
    rewrite H1, H3 in Ht. rewrite H2, H3 in Hw. auto.
Qed.

Lemma keys_of_other_formats_witness :
  g_text (mkGroup 0 2 "SPEAKER_00" (-1 # 5) None None) = None /\
  g_words (mkGroup 0 2 "SPEAKER_00" (-1 # 5) None None) = None.
Proof.
  destruct (keys_of_other_formats true "text" [ Run.seg_a ]
              [ mkGroup 0 2 "SPEAKER_00" (-1 # 5) None None ]
              (mkGroup 0 2 "SPEAKER_00" (-1 # 5) None None)) as [_ H].
  - reflexivity.
  - left. reflexivity.
  - apply H; discriminate.
Defined.

(** ** The speakers of the output *)

Section Speakers.

Variable diarization_list : list Track.
Variable offset_seconds : Z.

Local Abbreviation known := (known_speaker diarization_list).

Lemma while_turns_known (ws we : Q) (idx : nat) (spk : option string)
    (appended : bool) (st : Scan) :
  known spk ->
  while_turns diarization_list ws we idx spk = Ok (appended, st) ->
  known (speaker st).
Proof.
  funelim (while_turns diarization_list ws we idx spk); intros Hk E.
  - injection E as _ <-. exact Hk.
  - assert (Hl : known (Some label)).
    { intros x [= <-]. apply nth_error_In in Heq.
      apply (in_map snd) in Heq. exact Heq. }
    destruct (overlaps turn ws we).
    + injection E as _ <-. exact Hl.
    + destruct (Qlt_bool (turn_end turn) ws).
      * eapply H; eauto.
      * injection E as _ <-. exact Hl.
  - discriminate.
Qed.

Lemma labeled_words_known (words : list Word) (st st' : Scan)
    (lw : list (Word * option string)) :
  known (speaker st) ->
  labeled_words diarization_list offset_seconds words st = Ok (st', lw) ->
  known (speaker st').
Proof.
  revert st st' lw.
  induction words as [|word rest IH]; intros st st' lw Hk; simpl.
  - intros [= <- _]. exact Hk.
  - destruct (while_turns _ _ _ _ _) as [[b st1]|] eqn:E;
      [simpl|discriminate].
    destruct (labeled_words _ _ rest st1) as [[st2 tl]|] eqn:El;
      [simpl|discriminate].
    intros [= <- _]. eapply IH; [|exact El].
    eapply while_turns_known; eauto.
Qed.

Lemma segment_loop_known (segs : list Segment) (st st' : Scan)
    (final_segments l : list LabeledSegment) :
  known (speaker st) ->
  Forall (fun x => In (l_speaker x) (map snd diarization_list))
         final_segments ->
  segment_loop diarization_list offset_seconds segs st final_segments
  = Ok (st', l) ->
  Forall (fun x => In (l_speaker x) (map snd diarization_list)) l.
Proof.
  revert st final_segments.
  induction segs as [|segment rest IH]; intros st fs Hk Hf; simpl.
  - intros [= _ <-]. exact Hf.
  - destruct (segment_step _ _ segment st) as [[st1 o]|] eqn:E;
      [simpl|discriminate].
    apply segment_step_labeled in E as (lw & El & Ho).
    pose proof (labeled_words_known _ _ _ _ Hk El) as Hk1.
    destruct o as [x|]; apply IH; auto.
    apply Forall_app. split; [exact Hf|]. constructor; [|constructor].
    destruct Ho as (_ & Hs & _). apply Hk1. exact Hs.
Qed.

End Speakers.

(** X9: every speaker of a group is a label of the turns, so the output
    names at most as many distinct speakers as the count returned with
    it. *)
Theorem speakers_come_from_the_turns
    (diarization_list : list Track) (offset_seconds : Z)
    (group_segments : bool) (fmt : string)
    (segs : list Segment) (final_segments : list LabeledSegment)
    (out : list Group) :
  merge diarization_list offset_seconds segs = Ok final_segments ->
  group group_segments fmt final_segments = Ok out ->
  (forall g, In g out ->
     exists turn track,
       In (turn, track, g_speaker g) diarization_list) /\
  (List.length (nodup string_dec (map g_speaker out))
   <= detected_num_speakers diarization_list)%nat.
Proof.
  intros Em Eg.
  assert (Hin : forall g, In g out ->
                  In (g_speaker g) (map snd diarization_list)).
  { unfold merge in Em.
    destruct (segment_loop _ _ segs _ _) as [[st' fs]|] eqn:E;
      [simpl in Em|discriminate].
    injection Em as ->.
    apply segment_loop_known in E; [|intros x; discriminate|constructor].
    destruct (group_runs group_segments fmt final_segments)
      as (runs & E' & <- & _).
    rewrite E' in Eg. injection Eg as <-.
    intros g Hg. apply in_map_iff in Hg as ([s0 done] & <- & Hr).
    rewrite Forall_forall in E. apply E.
    apply in_flat_map. exists (s0, done). split; [exact Hr|].
    left. reflexivity. }
  split.
  - intros g Hg. apply Hin in Hg.
    apply in_map_iff in Hg as ([[turn track] label] & E & Ht).
    simpl in E. subst label. eauto.
  - unfold detected_num_speakers. apply NoDup_incl_length.
    + apply NoDup_nodup.
    + intros x Hx. apply nodup_In in Hx. apply nodup_In.
      apply in_map_iff in Hx as (g & <- & Hg). auto.
Qed.

Lemma speakers_come_from_the_turns_witness :
  (List.length (nodup string_dec (map g_speaker
     [ run_group "both"
         (mkLabeled (-1 # 5) (0 + 0 + 0 - 0) (6 + 0 + 0 - 0)
            "SPEAKER_01" "hi yo"
            (map strip_word (s_words (build_segment 0 Run.segment_meet))),
          []) ]))
   <= detected_num_speakers Run.turns_meet)%nat.
Proof.
  apply (speakers_come_from_the_turns Run.turns_meet 0 true "both"
           (build_segments 0 [ Run.segment_meet ])
           [ mkLabeled (-1 # 5) (0 + 0 + 0 - 0) (6 + 0 + 0 - 0)
               "SPEAKER_01" "hi yo"
               (map strip_word
                  (s_words (build_segment 0 Run.segment_meet))) ]);
    vm_compute; reflexivity.
Defined.

(** X10: in a prediction made as [Notte.process] makes it (no offset),
    every word of every group met a turn of the diarization that overlaps
    the word's interval widened by the margin on both sides. *)
Theorem default_prediction_covers_words
    (acquire_audio :
       option string -> option string -> option string -> result string)
    (transcribe :
       string -> option string -> option string -> bool -> bool ->
       result (list Segment * string))
    (diarize : string -> option nat -> result (list Track))
    (audio_url wav : string) (turns : list Track) (out : Output)
    (g : Group) (ws : list Word) (w : Word) :
  acquire_audio None (Some audio_url) None = Ok wav ->
  diarize wav None = Ok turns ->
  predict acquire_audio transcribe diarize None (Some audio_url) None
          true "both" None false None None 0 = Ok out ->
  In g (segments out) -> g_words g = Some ws -> In w ws ->
  exists turn track label,
    In (turn, track, label) turns /\
    turn_start turn <= w_end w + margin /\
    w_start w - margin <= turn_end turn.
Proof.
  intros Ha Hd. unfold predict, speech_to_text. rewrite Ha. simpl.
  destruct (transcribe _ _ _ _ _) as [[segs tl]|]; [simpl|discriminate].
  rewrite Hd. simpl.
  destruct (merge _ _ _) as [fs|] eqn:Em; [simpl|discriminate].
  destruct (group _ _ _) as [groups|] eqn:Eg; [simpl|discriminate].
  intros [= <-]. simpl. intros Hg Hws Hw.
  eapply coverage_without_offset; eauto.
Qed.

Lemma default_prediction_covers_words_witness :
  exists turn track label,
    In (turn, track, label) Run.turns_early /\
    turn_start turn <= 1 + 0 + margin /\
    0 + 0 - margin <= turn_end turn.
Proof.
  apply (default_prediction_covers_words
           Run.acquire_ok (Run.transcribe_to [ Run.segment_hi ])
           (Run.diarize_to Run.turns_early) "http://host/a.mp3"
           "temp-0.wav" Run.turns_early
           (mkOutput
              [ new_group "both"
                  (mkLabeled (-1 # 5) (0 + 0 + 0 - 0) (1 + 0 + 0 - 0)
                     "SPEAKER_00" "hi"
                     [ mkWord (0 + 0) (1 + 0) "hi" (9 # 10) ]) ]
              "en" 1)
           (new_group "both"
              (mkLabeled (-1 # 5) (0 + 0 + 0 - 0) (1 + 0 + 0 - 0)
                 "SPEAKER_00" "hi" [ mkWord (0 + 0) (1 + 0) "hi" (9 # 10) ]))
           [ mkWord (0 + 0) (1 + 0) "hi" (9 # 10) ]
           (mkWord (0 + 0) (1 + 0) "hi" (9 # 10))).
  - reflexivity.
  - reflexivity.
  - vm_compute. reflexivity.
  - left. reflexivity.
  - reflexivity.
  - left. reflexivity.
Defined.

(** ** The text and the words of a segment's dict *)

Module VisibleFacts.

Import PyStr.
Local Open Scope string_scope.

Lemma visible_cons (c : ascii) (s : string) :
  visible (String c s)
  = if isspace c then visible s else String c (visible s).
Proof. reflexivity. Qed.

Lemma visible_app (a b : string) : visible (a ++ b) = visible a ++ visible b.
Proof.
  induction a as [|c a IH]; simpl; [reflexivity|].
  destruct (isspace c); simpl; rewrite IH; reflexivity.
Qed.

Lemma visible_all_space (s : string) : all_space s = true -> visible s = "".
Proof.
  induction s as [|c s IH]; simpl; [reflexivity|].
  destruct (isspace c); simpl; [exact IH|discriminate].
Qed.

Lemma visible_strip (s : string) : visible (strip s) = visible s.
Proof.
  unfold strip.
  destruct (PyStrFacts.lstrip_split s) as (pre & E1 & H1).
  destruct (PyStrFacts.rstrip_split (lstrip s)) as (post & E2 & H2).
  rewrite E1 at 2. rewrite E2 at 2.
  rewrite !visible_app, (visible_all_space _ H1), (visible_all_space _ H2).
  simpl. clear. induction (visible (rstrip (lstrip s))) as [|c r IH];
    simpl; [reflexivity|]. rewrite <- IH. reflexivity.
Qed.

Lemma visible_sub_double_space (s : string) :
  visible (sub_double_space s) = visible s.
Proof.
  assert (H : visible (sub_double_space s) = visible s /\
              forall c, visible (sub_double_space (String c s))
                        = visible (String c s)).
  { induction s as [|a r [IH1 IH2]].
    - split; [reflexivity|]. intros c.
      destruct (ascii_dec c " ") as [->|Hc]; [reflexivity|].
      rewrite PyStrFacts.sub_double_space_other by exact Hc. reflexivity.
    - split; [apply IH2|]. intros c.
      destruct (ascii_dec c " ") as [->|Hc].
      + destruct (ascii_dec a " ") as [->|Ha].
        * rewrite PyStrFacts.sub_double_space_pair. simpl. exact IH1.
        * rewrite PyStrFacts.sub_double_space_single by exact Ha.
          change (visible (String " " ?x)) with (visible x).
          apply IH2.
      + rewrite PyStrFacts.sub_double_space_other by exact Hc.
        rewrite (visible_cons c (sub_double_space (String a r))),
          (visible_cons c (String a r)), IH2.
        reflexivity. }
  apply H.
Qed.

Lemma visible_join (l : list string) :
  visible (join l) = String.concat "" (map visible l).
Proof.
  unfold join. induction l as [|x l IH]; [reflexivity|].
  destruct l as [|y l]; [reflexivity|].
  change (String.concat "" (x :: y :: l))
    with (x ++ "" ++ String.concat "" (y :: l)).
  change (String.concat "" (map visible (x :: y :: l)))
    with (visible x ++ "" ++ String.concat "" (map visible (y :: l))).
  rewrite !visible_app, IH. reflexivity.
Qed.

End VisibleFacts.

(** X11: the text of a segment's dict and its word list agree up to
    whitespace: the non-whitespace characters of the text are those of
    the stored words, in order. *)
Theorem text_agrees_with_words
    (diarization_list : list Track) (offset_seconds : Z)
    (segment : Segment) (st st' : Scan) (l : LabeledSegment) :
  segment_step diarization_list offset_seconds segment st
  = Ok (st', Some l) ->
  visible (l_text l)
  = String.concat "" (map (fun w => visible (w_word w)) (l_words l)).
Proof.
  intros H.
  apply segment_step_labeled in H as (lw & _ & _ & _ & -> & ->).
  rewrite VisibleFacts.visible_strip, VisibleFacts.visible_sub_double_space,
    VisibleFacts.visible_join, !map_map.
  f_equal. apply map_ext. intros p. unfold stored_word, raw_text. simpl.
  rewrite VisibleFacts.visible_strip. reflexivity.
Qed.

Lemma text_agrees_with_words_witness :
  visible "hi yo" = String.concat "" [ visible "hi"; visible "yo" ].
Proof.
  apply (text_agrees_with_words
           Run.turns_meet 0 (build_segment 0 Run.segment_meet) Run.start
           (mkScan 1 (Some "SPEAKER_01"%string))
           (mkLabeled (-1 # 5) (0 + 0 + 0 - 0) (6 + 0 + 0 - 0)
              "SPEAKER_01" "hi yo"
              [ mkWord (0 + 0) (1 + 0) "hi" (9 # 10);
                mkWord ((26 # 5) + 0) (6 + 0) "yo" (9 # 10) ])).
  vm_compute. reflexivity.
Defined.

(** X12: neither the text of a segment's dict nor the text of any word
    stored in it begins or ends with whitespace. *)
Theorem labeled_segment_is_stripped
    (diarization_list : list Track) (offset_seconds : Z)
    (segment : Segment) (st st' : Scan) (l : LabeledSegment) :
  segment_step diarization_list offset_seconds segment st
  = Ok (st', Some l) ->
  stripped (l_text l) /\
  Forall (fun w => stripped (w_word w)) (l_words l).
Proof.
  intros H.
  apply segment_step_labeled in H as (lw & _ & _ & _ & -> & ->).
  split.
  - split; apply PyStrFacts.strip_spec.
  - apply Forall_forall. intros w Hw.
    apply in_map_iff in Hw as (p & <- & _). unfold stored_word. simpl.
    split; apply PyStrFacts.strip_spec.
Qed.

Lemma labeled_segment_is_stripped_witness :
  stripped "hi yo" /\
  Forall (fun w => stripped (w_word w))
         [ mkWord (0 + 0) (1 + 0) "hi" (9 # 10);
           mkWord ((26 # 5) + 0) (6 + 0) "yo" (9 # 10) ].
Proof.
  apply (labeled_segment_is_stripped
           Run.turns_meet 0 (build_segment 0 Run.segment_meet) Run.start
           (mkScan 1 (Some "SPEAKER_01"%string))
           (mkLabeled (-1 # 5) (0 + 0 + 0 - 0) (6 + 0 + 0 - 0)
              "SPEAKER_01" "hi yo"
              [ mkWord (0 + 0) (1 + 0) "hi" (9 # 10);
                mkWord ((26 # 5) + 0) (6 + 0) "yo" (9 # 10) ])).
  vm_compute. reflexivity.
Defined.

(** ** Setup and prediction *)

(** X13: [setup] uses the token passed to it when that is non-empty and
    the token of the object otherwise; without any it raises
    [ValueError] before loading a model; with one it loads the models
    with that token, fails exactly as the loading fails, and leaves the
    token on the object. *)
Theorem setup_needs_a_token
    (load_models : string -> result unit) (self : Predictor)
    (token : option string) :
  let effective := if truthy token then token else hf_token self in
  (truthy effective = false ->
   setup load_models self token
   = Raise (ValueError "HuggingFace token is required")) /\
  (forall p,
      setup load_models self token = Ok p ->
      hf_token p = effective /\
      exists t u,
        effective = Some t /\ t <> ""%string /\ load_models t = Ok u) /\
  (forall e,
      setup load_models self token = Raise e ->
      truthy effective = true ->
      exists t, effective = Some t /\ load_models t = Raise e).
Proof.
  assert (H : forall c r,
             (forall p,
                 (_ <- load_models (String c r) ;; Ok (mkPredictor
                    (Some (String c r)))) = Ok p ->
                 hf_token p = Some (String c r) /\
                 exists t u,
                   Some (String c r) = Some t /\ t <> ""%string /\
                   load_models t = Ok u) /\
             (forall e,
                 (_ <- load_models (String c r) ;; Ok (mkPredictor
                    (Some (String c r)))) = Raise e ->
                 exists t,
                   Some (String c r) = Some t /\ load_models t = Raise e)).
  { intros c r. destruct (load_models (String c r)) as [u|e0] eqn:E; simpl.
    - split; [|discriminate]. intros p [= <-]. split; [reflexivity|].
      exists (String c r), u. repeat split; auto. discriminate.
    - split; [discriminate|]. intros e [= <-]. eauto. }
  unfold setup. destruct (truthy token) eqn:Et; simpl.
  - destruct token as [[|c r]|]; try discriminate. simpl.
    destruct (H c r) as [H1 H2].
    split; [discriminate|]. split; [exact H1|]. intros e He _. auto.
  - destruct self as [[[|c r]|]]; simpl.
    + split; [reflexivity|]. split; discriminate.
    + destruct (H c r) as [H1 H2].
      split; [discriminate|]. split; [exact H1|]. intros e He _. auto.
    + split; [reflexivity|]. split; discriminate.
Qed.

Lemma setup_needs_a_token_witness :
  setup Run.load_ok (mkPredictor None) (Some ""%string)
  = Raise (ValueError "HuggingFace token is required") /\
  hf_token (mkPredictor (Some "hf_old"%string)) = Some "hf_old"%string.
Proof.
  split.
  - destruct (setup_needs_a_token Run.load_ok (mkPredictor None)
                (Some ""%string)) as (H & _).
    apply H. reflexivity.
  - destruct (setup_needs_a_token Run.load_ok
                (mkPredictor (Some "hf_old"%string)) None) as (_ & H & _).
    destruct (H (mkPredictor (Some "hf_old"%string)) eq_refl) as [E _].
    exact E.
Defined.

(** What [predict] raises is [RuntimeError] with its fixed message, and
    the cause it carries is the exception of the first of the functions
    it is given that failed. *)
Lemma predict_plain_raises
    (acquire_audio :
       option string -> option string -> option string -> result string)
    (transcribe :
       string -> option string -> option string -> bool -> bool ->
       result (list Segment * string))
    (diarize : string -> option nat -> result (list Track))
    (file_string file_url file : option string)
    (group_segments : bool) (fmt : string) (num_speakers : option nat)
    (translate : bool) (language prompt : option string)
    (offset_seconds : Z) (e : exception) :
  predict acquire_audio transcribe diarize file_string file_url file
          group_segments fmt num_speakers translate language prompt
          offset_seconds = Raise e ->
  exists cause,
    e = RuntimeError "Error Running inference with local model" cause /\
    (acquire_audio file_string file_url file = Raise cause \/
     exists wav,
       acquire_audio file_string file_url file = Ok wav /\
       (transcribe wav prompt language translate true = Raise cause \/
        (exists r, transcribe wav prompt language translate true = Ok r) /\
        diarize wav num_speakers = Raise cause)).
Proof.
  unfold predict, speech_to_text.
  destruct (acquire_audio _ _ _) as [wav|e0]; simpl.
  2: { intros [= <-]. exists e0. auto. }
  destruct (transcribe _ _ _ _ _) as [[segs tl]|e1] eqn:Et; simpl.
  2: { intros [= <-]. exists e1. split; [reflexivity|]. right.
       exists wav. auto. }
  destruct (diarize _ _) as [turns|e2] eqn:Ed; simpl.
  2: { intros [= <-]. exists e2. split; [reflexivity|]. right.
       exists wav. split; [reflexivity|]. right. split; [eauto|exact Ed]. }
  destruct (merge_returns turns offset_seconds
              (build_segments offset_seconds segs)) as (fs & ->). simpl.
  destruct (group_returns group_segments fmt fs) as (out & -> & _).
  discriminate.
Qed.

(** X15: the speaker count is the number of distinct labels among the
    turns: a turn adds one exactly when its label occurs in no later
    turn; the count is zero only without turns and never exceeds their
    number. *)
Theorem speaker_count_is_distinct_labels
    (t : Track) (diarization_list : list Track) :
  detected_num_speakers (t :: diarization_list)
  = (if in_dec string_dec (snd t) (map snd diarization_list)
     then detected_num_speakers diarization_list
     else S (detected_num_speakers diarization_list)) /\
  (detected_num_speakers diarization_list = 0%nat
   <-> diarization_list = []) /\
  (detected_num_speakers diarization_list
   <= n_speakers diarization_list)%nat.
Proof.
  unfold detected_num_speakers, n_speakers. split; [|split].
  - simpl. destruct (in_dec string_dec _ _); reflexivity.
  - split.
    + destruct diarization_list as [|x l]; [reflexivity|].
      intros H. exfalso.
      assert (Hin : In (snd x) (nodup string_dec (map snd (x :: l))))
        by (apply nodup_In; left; reflexivity).
      destruct (nodup string_dec (map snd (x :: l)));
        [destruct Hin|discriminate].
    + intros ->. reflexivity.
  - assert (H : (List.length (nodup string_dec (map snd diarization_list))
                 <= List.length (map snd diarization_list))%nat).
    { apply NoDup_incl_length; [apply NoDup_nodup|].
      intros x Hx. apply nodup_In in Hx. exact Hx. }
    rewrite length_map in H. exact H.
Qed.

(** ** [convert_time] *)

Lemma py_round_cases (x : Q) :
  let f := Qfloor x in
  (x - inject_Z f < 1 # 2 /\ py_round x = f) \/
  (1 # 2 < x - inject_Z f /\ py_round x = (f + 1)%Z) \/
  (x - inject_Z f == 1 # 2 /\
   py_round x = (if Z.even f then f else (f + 1)%Z)).
Proof.
  unfold py_round. simpl.
  destruct (Qcompare_spec (x - inject_Z (Qfloor x)) (1 # 2)) as [H|H|H];
    auto.
Qed.

(** X16: [round] as [convert_time] uses it returns an integer at most
    one half away from its argument, the even one of the two when both
    are one half away, and an integer is its own rounding. *)
Theorem py_round_is_nearest_even (x : Q) :
  Qabs (inject_Z (py_round x) - x) <= 1 # 2 /\
  (Qabs (inject_Z (py_round x) - x) == 1 # 2 ->
   Z.even (py_round x) = true) /\
  (forall z, x == inject_Z z -> py_round x = z).
Proof.
  pose proof (Qfloor_le x) as Hlo. pose proof (Qlt_floor x) as Hhi.
  rewrite inject_Z_plus in Hhi. change (inject_Z 1) with 1 in Hhi.
  assert (Hz : forall z, x == inject_Z z -> Qfloor x = z).
  { intros z Hx. rewrite Hx. apply Qfloor_Z. }
  destruct (py_round_cases x) as [[H ->]|[[H ->]|[H ->]]].
  - split; [|split].
    + apply Qabs_case; intros; lra.
    + intros Ht. exfalso. revert Ht. apply Qabs_case; intros; lra.
    + exact Hz.
  - rewrite inject_Z_plus. change (inject_Z 1) with 1.
    split; [|split].
    + apply Qabs_case; intros; lra.
    + intros Ht. exfalso. revert Ht. apply Qabs_case; intros; lra.
    + intros z Hx. exfalso. rewrite (Hz z Hx) in H. lra.
  - split; [|split].
    + destruct (Z.even (Qfloor x)).
      * apply Qabs_case; intros; lra.
      * rewrite inject_Z_plus. change (inject_Z 1) with 1.
        apply Qabs_case; intros; lra.
    + intros _. destruct (Z.even (Qfloor x)) eqn:E; [exact E|].
      rewrite Z.even_add, E. reflexivity.
    + intros z Hx. exfalso. rewrite (Hz z Hx) in H. lra.
Qed.

Lemma py_round_is_nearest_even_witness :
  Z.even (py_round (5 # 2)) = true /\ py_round (inject_Z 7) = 7%Z.
Proof.
  destruct (py_round_is_nearest_even (5 # 2)) as (_ & H & _).
  destruct (py_round_is_nearest_even (inject_Z 7)) as (_ & _ & H').
  split; [apply H; reflexivity|apply H'; reflexivity].
Defined.

(** X17: when [convert_time] returns, the timedelta is a whole number of
    seconds, the rounded argument plus the offset, with the seconds
    within one day and the days within the range of [timedelta]; it
    fails exactly when that number of seconds is out of this range. *)
Theorem convert_time_total_seconds (secs : Q) (offset_seconds : Z) :
  (forall td,
      convert_time secs offset_seconds = Some td ->
      total_seconds td = (py_round secs + offset_seconds)%Z /\
      (0 <= td_seconds td < 86400)%Z /\
      td_microseconds td = 0%Z /\
      (Z.abs (td_days td) <= 999999999)%Z) /\
  (convert_time secs offset_seconds = None <->
   (py_round secs + offset_seconds < -999999999 * 86400)%Z \/
   (1000000000 * 86400 <= py_round secs + offset_seconds)%Z).
Proof.
  unfold convert_time, timedelta_of_seconds, total_seconds.
  set (n := (py_round secs + offset_seconds)%Z).
  pose proof (Z.div_mod n 86400 ltac:(lia)) as Hdm.
  pose proof (Z.mod_pos_bound n 86400 ltac:(lia)) as Hm.
  destruct (Z.gtb_spec (Z.abs (n / 86400)) 999999999) as [Hgt|Hle].
  - split; [discriminate|]. split; [intros _|reflexivity]. lia.
  - split.
    + intros td [= <-]. simpl. repeat split; lia.
    + split; [discriminate|]. intros H. exfalso. lia.
Qed.

Lemma convert_time_total_seconds_witness :
  total_seconds (mkTimedelta 1 2 0) = (py_round (5 # 2) + 86400)%Z /\
  (0 <= 2 < 86400)%Z.
Proof.
  destruct (convert_time_total_seconds (5 # 2) 86400) as [H _].
  destruct (H (mkTimedelta 1 2 0) eq_refl) as (H1 & H2 & _).
  split; [exact H1|exact H2].
Defined.

(** ** The payload of [file_string] *)

Module PayloadFacts.

Local Open Scope string_scope.

Lemma split_comma_not_nil (s : string) : split_comma s <> [].
Proof.
  induction s as [|c r IH]; simpl; [discriminate|].
  destruct (Ascii.eqb c ","); [discriminate|].
  destruct (split_comma r); discriminate.
Qed.

Lemma split_comma_plain (s : string) :
  has_comma s = false -> split_comma s = [ s ].
Proof.
  induction s as [|c r IH]; simpl; [reflexivity|].
  destruct (Ascii.eqb c ","); simpl; [discriminate|].
  intros H. rewrite (IH H). reflexivity.
Qed.

Lemma split_comma_app (a b : string) :
  has_comma a = false ->
  split_comma (a ++ String "," b) = a :: split_comma b.
Proof.
  induction a as [|c r IH]; simpl; [reflexivity|].
  destruct (Ascii.eqb c ","); simpl; [discriminate|].
  intros H. rewrite (IH H). reflexivity.
Qed.

Lemma has_comma_app (a b : string) :
  has_comma (a ++ b) = has_comma a || has_comma b.
Proof.
  induction a as [|c r IH]; simpl; [reflexivity|].
  rewrite IH, orb_assoc. reflexivity.
Qed.

Lemma split_comma_pieces (s : string) :
  Forall (fun piece => has_comma piece = false) (split_comma s).
Proof.
  induction s as [|c r IH]; simpl.
  - repeat constructor.
  - destruct (Ascii.eqb c ",") eqn:E; [constructor; auto|].
    destruct (split_comma r) as [|h t]; [repeat constructor; simpl|].
    + rewrite E. reflexivity.
    + inversion IH; subst. constructor; [simpl|auto].
      rewrite E. assumption.
Qed.

Lemma split_comma_join (s : string) :
  String.concat "," (split_comma s) = s.
Proof.
  induction s as [|c r IH]; simpl; [reflexivity|].
  destruct (Ascii.eqb_spec c ",") as [->|Hc].
  - pose proof (split_comma_not_nil r) as Hn.
    destruct (split_comma r) as [|h t]; [contradiction|].
    change (String.concat "," ("" :: h :: t))
      with ("" ++ "," ++ String.concat "," (h :: t)).
    rewrite IH. reflexivity.
  - pose proof (split_comma_not_nil r) as Hn.
    destruct (split_comma r) as [|h t]; [contradiction|].
    destruct t as [|h' t].
    + simpl in *. rewrite IH. reflexivity.
    + change (String.concat "," (String c h :: h' :: t))
        with (String c (h ++ "," ++ String.concat "," (h' :: t))).
      change (String.concat "," (h :: h' :: t))
        with (h ++ "," ++ String.concat "," (h' :: t)) in IH.
      rewrite IH. reflexivity.
Qed.

End PayloadFacts.

(** X18: [split(",")] and ["," .join] are inverse on the split side:
    joining the pieces with commas gives the string back, and no piece
    contains a comma. *)
Theorem split_comma_round_trip (s : string) :
  String.concat "," (split_comma s) = s /\
  Forall (fun piece => has_comma piece = false) (split_comma s).
Proof.
  split; [apply PayloadFacts.split_comma_join|].
  apply PayloadFacts.split_comma_pieces.
Qed.

(** X19: taking the payload of [file_string] never raises [IndexError];
    a string without comma is its own payload; from a data URI
    [head,body] with no comma in [head] and [body] the payload is
    [body], and whatever follows a second comma is dropped. *)
Theorem file_string_payload_is_the_body (head body tail : string) :
  has_comma head = false -> has_comma body = false ->
  file_string_payload body = Ok body /\
  file_string_payload (head ++ String "," body) = Ok body /\
  file_string_payload (head ++ String "," (body ++ String "," tail))
  = Ok body /\
  (forall s, exists piece,
      file_string_payload s = Ok piece /\ has_comma piece = false).
Proof.
  intros Hh Hb. unfold file_string_payload. repeat split.
  - rewrite Hb. reflexivity.
  - rewrite PayloadFacts.has_comma_app, Hh. simpl.
    rewrite PayloadFacts.split_comma_app by exact Hh.
    rewrite PayloadFacts.split_comma_plain by exact Hb. reflexivity.
  - rewrite PayloadFacts.has_comma_app, Hh. simpl.
    rewrite PayloadFacts.split_comma_app by exact Hh.
    rewrite PayloadFacts.split_comma_app by exact Hb. reflexivity.
  - intros s. destruct (has_comma s) eqn:E; [|eauto].
    pose proof (PayloadFacts.split_comma_pieces s) as Hp.
    destruct (split_comma s) as [|a [|b t]] eqn:Es.
    + exfalso. eapply PayloadFacts.split_comma_not_nil; eauto.
    + exfalso. pose proof (PayloadFacts.split_comma_join s) as Hj.
      rewrite Es in Hj. simpl in Hj. subst a.
      inversion Hp; subst. congruence.
    + simpl. exists b. split; [reflexivity|].
      inversion Hp as [|? ? _ Hp']; subst. inversion Hp'; auto.
Qed.

Lemma file_string_payload_is_the_body_witness :
  file_string_payload "data:audio/wav;base64,UklGRg==" = Ok "UklGRg=="%string.
Proof.
  destruct (file_string_payload_is_the_body
              "data:audio/wav;base64" "UklGRg==" "" eq_refl eq_refl)
    as (_ & H & _).
  exact H.
Defined.

(** ** Progress reports *)

Lemma snd_then_report (A B : Type) (m : Reporting A) (k : A -> Reporting B) :
  snd (then_report m k) = bind (snd m) (fun a => snd (k a)).
Proof. unfold then_report. destruct (snd m); reflexivity. Qed.

Lemma fst_then_report_quiet (A B : Type) (r : result A)
    (k : A -> Reporting B) :
  fst (then_report (quiet r) k)
  = match r with Ok a => fst (k a) | Raise _ => [] end.
Proof. unfold then_report, quiet. destruct r; reflexivity. Qed.

Section ReportFacts.

Variable progress_callback : bool.
Variable load_whisper : result unit.
Variable load_diarization : string -> result unit.
Variable acquire_audio :
  option string -> option string -> option string -> result string.
Variable transcribe :
  string -> option string -> option string -> bool -> bool ->
  result (list Segment * string).
Variable Waveform : Type.
Variable torchaudio_load : string -> result Waveform.
Variable diarization_model : Waveform -> option nat -> result (list Track).
Variable str_of_exception : exception -> string.

Local Abbreviation diarize := (diarize_of Waveform torchaudio_load diarization_model).

Lemma speech_to_text_reports_result (wav : string)
    (num_speakers : option nat) (prompt : option string)
    (offset_seconds : Z) (group_segments : bool)
    (language : option string) (word_timestamps : bool) (fmt : string)
    (translate : bool) :
  snd (speech_to_text_reports progress_callback transcribe Waveform
         torchaudio_load diarization_model wav num_speakers prompt offset_seconds
         group_segments language word_timestamps fmt translate)
  = speech_to_text transcribe diarize wav num_speakers prompt offset_seconds
                   group_segments language word_timestamps fmt translate.
Proof.
  unfold speech_to_text_reports, speech_to_text, diarize_of.
  rewrite ?snd_then_report. simpl.
  destruct (transcribe _ _ _ _ _) as [[segs tl]|]; simpl; [|reflexivity].
  rewrite ?snd_then_report. simpl.
  destruct (torchaudio_load wav) as [w|]; simpl; [|reflexivity].
  rewrite ?snd_then_report. simpl. rewrite ?snd_then_report. simpl.
  destruct (diarization_model w num_speakers) as [turns|]; simpl;
    [|reflexivity].
  rewrite ?snd_then_report. simpl.
  destruct (merge _ _ _) as [[|l fs]|]; simpl; try reflexivity.
  rewrite ?snd_then_report. simpl.
  destruct (group_loop _ _ _ _ _ _); simpl; reflexivity.
Qed.

End ReportFacts.

(** [predict_reports] and [setup_reports] have the results of [predict]
    and [setup], and log nothing without a callback. *)
Lemma predict_reports_result
    (progress_callback : bool)
    (load_whisper : result unit) (load_diarization : string -> result unit)
    (acquire_audio :
       option string -> option string -> option string -> result string)
    (transcribe :
       string -> option string -> option string -> bool -> bool ->
       result (list Segment * string))
    (Waveform : Type) (torchaudio_load : string -> result Waveform)
    (diarization_model : Waveform -> option nat -> result (list Track))
    (str_of_exception : exception -> string)
    (file_string file_url file : option string)
    (group_segments : bool) (fmt : string) (num_speakers : option nat)
    (translate : bool) (language prompt : option string)
    (offset_seconds : Z) (called_with : bool) (self : Predictor)
    (token : option string) :
  let predicted :=
    predict_reports progress_callback acquire_audio transcribe Waveform
      torchaudio_load diarization_model str_of_exception
      file_string file_url file group_segments fmt num_speakers translate
      language prompt offset_seconds in
  let set_up :=
    setup_reports progress_callback load_whisper load_diarization
                  called_with self token in
  snd predicted
  = predict acquire_audio transcribe
            (diarize_of Waveform torchaudio_load diarization_model)
            file_string file_url file group_segments fmt num_speakers
            translate language prompt offset_seconds /\
  snd (snd set_up)
  = setup (load_models_of load_whisper load_diarization) self token /\
  (progress_callback = false -> fst predicted = []) /\
  (progress_callback = false -> called_with = false ->
   fst (snd set_up) = []).
Proof.
  intros predicted set_up. subst predicted set_up.
  split; [|split; [|split]].
  - unfold predict_reports, predict, acquire_reports.
    match goal with
    | |- snd (match snd ?b with _ => _ end) = _ =>
        assert (E : snd b
                    = (temp_wav_filename <-
                         acquire_audio file_string file_url file ;;
                       '(segs, detected, detected_language) <-
                         speech_to_text transcribe
                           (diarize_of Waveform torchaudio_load diarization_model)
                           temp_wav_filename num_speakers prompt
                           offset_seconds group_segments language true fmt
                           translate ;;
                       Ok (mkOutput segs detected_language detected)));
        [|destruct (snd b) eqn:Eb; rewrite <- E; [exact Eb|reflexivity]]
    end.
    rewrite ?snd_then_report.
    cbn -[speech_to_text_reports speech_to_text].
    rewrite ?snd_then_report.
    destruct file, file_url, file_string;
      cbn -[speech_to_text_reports speech_to_text];
      destruct (acquire_audio _ _ _);
      cbn -[speech_to_text_reports speech_to_text]; try reflexivity;
      rewrite ?snd_then_report;
      cbn -[speech_to_text_reports speech_to_text];
      rewrite ?snd_then_report;
      rewrite speech_to_text_reports_result;
      destruct (speech_to_text _ _ _ _ _ _ _ _ _ _ _) as [[[segs d] tl]|];
      reflexivity.
  - unfold setup_reports, setup, load_models_of. simpl.
    destruct (hf_token (if truthy token then _ else _)) as [[|c r]|];
      try reflexivity.
    rewrite ?snd_then_report. simpl. rewrite ?snd_then_report. simpl.
    destruct load_whisper; simpl; [|reflexivity].
    rewrite ?snd_then_report. simpl. rewrite ?snd_then_report. simpl.
    destruct (load_diarization (String c r)); simpl; reflexivity.
  - intros ->. unfold predict_reports, acquire_reports,
      speech_to_text_reports, then_report, update_progress, quiet. simpl.
    destruct file, file_url, file_string; simpl;
      destruct (acquire_audio _ _ _); simpl; try reflexivity;
      destruct (transcribe _ _ _ _ _) as [[segs tl]|]; simpl;
      try reflexivity;
      destruct (torchaudio_load _); simpl; try reflexivity;
      destruct (diarization_model _ _); simpl; try reflexivity;
      destruct (merge _ _ _) as [[|l fs]|]; simpl; try reflexivity;
      destruct (group_loop _ _ _ _ _ _); reflexivity.
  - intros -> ->. unfold setup_reports, then_report, update_progress, quiet.
    simpl.
    destruct (hf_token (if truthy token then _ else _)) as [[|c r]|];
      try reflexivity. simpl.
    destruct load_whisper; simpl; [|reflexivity].
    destruct (load_diarization (String c r)); reflexivity.
Qed.

Section ReportOrder.

Variable acquire_audio :
  option string -> option string -> option string -> result string.
Variable transcribe :
  string -> option string -> option string -> bool -> bool ->
  result (list Segment * string).
Variable Waveform : Type.
Variable torchaudio_load : string -> result Waveform.
Variable diarization_model : Waveform -> option nat -> result (list Track).
Variable str_of_exception : exception -> string.

Variables file_string file_url file : option string.
Variable group_segments : bool.
Variable fmt : string.
Variable num_speakers : option nat.
Variable translate : bool.
Variables language prompt : option string.
Variable offset_seconds : Z.

Local Abbreviation run :=
  (predict_reports true acquire_audio transcribe Waveform torchaudio_load
     diarization_model str_of_exception file_string file_url file
     group_segments fmt num_speakers translate language prompt
     offset_seconds).

Local Ltac outcomes :=
  unfold predict_reports, acquire_reports, speech_to_text_reports,
    then_report, update_progress, quiet; cbn -[merge group];
  destruct file, file_url, file_string; cbn -[merge group];
  destruct (acquire_audio _ _ _); cbn -[merge group];
  try (destruct (transcribe _ _ _ _ _) as [[? ?]|]; cbn -[merge group]);
  try (destruct (torchaudio_load _); cbn -[merge group]);
  try (destruct (diarization_model _ _); cbn -[merge group]);
  try (destruct (merge _ _ _) as [[|? ?]|]; cbn -[merge group]).


(** On success 90 is reported exactly when a group is returned. *)
Lemma predict_reports_cleaning (out : Output) :
  snd run = Ok out ->
  (In 90%Z (map progress (fst run)) <-> segments out <> []).
Proof.
  outcomes; try discriminate.
  all: try (intros [= <-]; simpl; split;
            [intros H; exfalso; repeat (destruct H as [H|H];
                                        [discriminate H|]); exact H
            |intros H; exfalso; apply H; reflexivity]).
  all: match goal with
       | |- context [group ?g ?f ?l] =>
           destruct (group_returns g f l) as (x & E & _ & _ & Hl);
           rewrite E; simpl
       end.
  all: intros [= <-]; simpl; split;
    [intros _ Hx; subst x; discriminate Hl|intros _; tauto].
Qed.

End ReportOrder.


(** X22: with a callback, a run of [predict] that succeeds reports 90
    exactly when it returns at least one group: the return for an empty
    [final_segments] comes before that report. *)
Theorem cleaning_is_reported_with_groups
    (acquire_audio :
       option string -> option string -> option string -> result string)
    (transcribe :
       string -> option string -> option string -> bool -> bool ->
       result (list Segment * string))
    (Waveform : Type) (torchaudio_load : string -> result Waveform)
    (diarization_model : Waveform -> option nat -> result (list Track))
    (str_of_exception : exception -> string)
    (file_string file_url file : option string)
    (group_segments : bool) (fmt : string) (num_speakers : option nat)
    (translate : bool) (language prompt : option string)
    (offset_seconds : Z) (out : Output) :
  let run :=
    predict_reports true acquire_audio transcribe Waveform torchaudio_load
      diarization_model str_of_exception file_string file_url file
      group_segments fmt num_speakers translate language prompt
      offset_seconds in
  snd run = Ok out ->
  (In 90%Z (map progress (fst run)) <-> segments out <> []).
Proof.
  intros run H. subst run.
  apply predict_reports_cleaning. exact H.
Qed.

Lemma cleaning_is_reported_with_groups_witness :
  In 90%Z
     (map progress
        (fst (predict_reports true Run.acquire_ok
                (Run.transcribe_to [ Run.segment_hi ]) unit
                (fun _ => Ok tt) (fun _ _ => Ok Run.turns_early)
                (fun _ => ""%string)
                None (Some "http://host/a.mp3"%string) None true "both"
                None false None None 0))).
Proof.
  apply (cleaning_is_reported_with_groups
           Run.acquire_ok (Run.transcribe_to [ Run.segment_hi ]) unit
           (fun _ => Ok tt) (fun _ _ => Ok Run.turns_early)
           (fun _ => ""%string)
           None (Some "http://host/a.mp3"%string) None true "both"
           None false None None 0
           (mkOutput
              [ new_group "both"
                  (mkLabeled (-1 # 5) (0 + 0 + 0 - 0) (1 + 0 + 0 - 0)
                     "SPEAKER_00" "hi"
                     [ mkWord (0 + 0) (1 + 0) "hi" (9 # 10) ]) ]
              "en" 1)).
  - vm_compute. reflexivity.
  - discriminate.
Defined.

(** X23: [setup] called with a callback, or on an object that has one,
    reports 0, 10 and 20 in this order, each before the step it
    announces: nothing without a token, 0 alone when the Whisper model
    fails to load, 0 and 10 when the diarization pipeline fails to
    load, all three exactly when it succeeds. *)
Theorem setup_reports_each_step
    (progress_callback : bool)
    (load_whisper : result unit) (load_diarization : string -> result unit)
    (called_with : bool) (self : Predictor) (token : option string) :
  let set_up :=
    setup_reports progress_callback load_whisper load_diarization
                  called_with self token in
  let effective := if truthy token then token else hf_token self in
  fst set_up = called_with || progress_callback /\
  (fst set_up = true ->
   match effective with
   | Some (String c r) =>
       match load_whisper, load_diarization (String c r) with
       | Raise e, _ =>
           map progress (fst (snd set_up)) = [ 0%Z ] /\
           snd (snd set_up) = Raise e
       | Ok _, Raise e =>
           map progress (fst (snd set_up)) = [ 0%Z; 10%Z ] /\
           snd (snd set_up) = Raise e
       | Ok _, Ok _ =>
           map progress (fst (snd set_up)) = [ 0%Z; 10%Z; 20%Z ] /\
           snd (snd set_up) = Ok (mkPredictor effective)
       end
   | _ =>
       fst (snd set_up) = [] /\
       snd (snd set_up)
       = Raise (ValueError "HuggingFace token is required")
   end).
Proof.
  intros set_up effective. subst set_up effective.
  unfold setup_reports. simpl. split.
  - destruct called_with; reflexivity.
  - intros ->.
    destruct (truthy token) eqn:Et.
    + destruct token as [[|c r]|]; try discriminate. simpl.
      unfold then_report, update_progress, quiet. simpl.
      destruct load_whisper; simpl; [|auto].
      destruct (load_diarization (String c r)); simpl; auto.
    + destruct self as [[[|c r]|]]; simpl; auto.
      unfold then_report, update_progress, quiet. simpl.
      destruct load_whisper; simpl; [|auto].
      destruct (load_diarization (String c r)); simpl; auto.
Qed.

Lemma setup_reports_each_step_witness :
  map progress
      (fst (snd (setup_reports false (Ok tt) (fun _ => Run.failing) true
                   (mkPredictor None) (Some "hf_token"%string))))
  = [ 0%Z; 10%Z ].
Proof.
  destruct (setup_reports_each_step false (Ok tt) (fun _ => Run.failing)
              true (mkPredictor None) (Some "hf_token"%string)) as [_ H].
  destruct (H eq_refl) as [E _]. exact E.
Defined.

(** ** One scan over all the words *)

Section OneScan.

Variable diarization_list : list Track.
Variable offset_seconds : Z.

Local Abbreviation labeled := (labeled_words diarization_list offset_seconds).

Lemma labeled_words_app (a b : list Word) (st : Scan) :
  labeled (a ++ b) st
  = ('(st1, la) <- labeled a st ;;
     '(st2, lb) <- labeled b st1 ;;
     Ok (st2, la ++ lb)).
Proof.
  revert st. induction a as [|word rest IH]; intros st; simpl.
  - destruct (labeled b st) as [[st2 lb]|]; reflexivity.
  - destruct (while_turns _ _ _ _ _) as [[x st1]|]; [simpl|reflexivity].
    rewrite IH.
    destruct (labeled rest st1) as [[st2 la]|]; [simpl|reflexivity].
    destruct (labeled b st2) as [[st3 lb]|]; reflexivity.
Qed.

Lemma segment_loop_scan (segs : list Segment) (st st' : Scan)
    (final_segments l : list LabeledSegment) :
  segment_loop diarization_list offset_seconds segs st final_segments
  = Ok (st', l) ->
  exists lw,
    labeled (flat_map s_words segs) st = Ok (st', lw) /\
    flat_map l_words l
    = flat_map l_words final_segments ++ map stored_word (retained lw).
Proof.
  revert st final_segments.
  induction segs as [|segment rest IH]; intros st fs; simpl.
  - intros [= <- <-]. exists []. simpl. rewrite app_nil_r. auto.
  - destruct (segment_step _ _ segment st) as [[st1 o]|] eqn:E;
      [simpl|discriminate].
    apply segment_step_labeled in E as (la & Ea & Ho).
    assert (Hr : forall lb,
               map stored_word (retained (la ++ lb))
               = map stored_word (retained la)
                 ++ map stored_word (retained lb)).
    { intros lb. unfold retained. rewrite flat_map_app, map_app.
      reflexivity. }
    intros Hl. destruct o as [x|];
      apply IH in Hl as (lb & Eb & Hw);
      exists (la ++ lb); rewrite labeled_words_app, Ea; simpl;
      rewrite Eb; simpl; (split; [reflexivity|]); rewrite Hw, Hr.
    + destruct Ho as (_ & _ & _ & Hx).
      rewrite flat_map_app. simpl. rewrite app_nil_r, Hx, app_assoc.
      reflexivity.
    + rewrite Ho. reflexivity.
Qed.

End OneScan.

(** X24: the cursor is not reset between segments: the words kept in
    [final_segments], taken together, are the words that one scan over
    all the words of all the segments retains, each stripped; how the
    words are split into segments does not change which are kept. *)
Theorem merge_is_one_scan
    (diarization_list : list Track) (offset_seconds : Z)
    (segs : list Segment) (final_segments : list LabeledSegment) :
  merge diarization_list offset_seconds segs = Ok final_segments ->
  exists st' lw,
    labeled_words diarization_list offset_seconds
                  (flat_map s_words segs) (mkScan 0 None)
    = Ok (st', lw) /\
    flat_map l_words final_segments = map stored_word (retained lw).
Proof.
  unfold merge.
  destruct (segment_loop _ _ segs _ _) as [[st' l]|] eqn:E;
    [simpl|discriminate].
  intros [= <-].
  apply segment_loop_scan in E as (lw & El & Hw). eauto.
Qed.

Lemma merge_is_one_scan_witness :
  exists st' lw,
    labeled_words Run.turns_meet 0
      (flat_map s_words
         (build_segments 0 [ Run.segment_hi_there; Run.segment_yo ]))
      (mkScan 0 None)
    = Ok (st', lw) /\
    [ mkWord (0 + 0) (1 + 0) "hi" (9 # 10);
      mkWord (1 + 0) (2 + 0) "there" (9 # 10);
      mkWord ((26 # 5) + 0) (6 + 0) "yo" (9 # 10) ]
    = map stored_word (retained lw).
Proof.
  apply (merge_is_one_scan Run.turns_meet 0
           (build_segments 0 [ Run.segment_hi_there; Run.segment_yo ])
           [ mkLabeled (-1 # 5) (0 + 0 + 0 - 0) (2 + 0 + 0 - 0)
               "SPEAKER_00" "hi there"
               [ mkWord (0 + 0) (1 + 0) "hi" (9 # 10);
                 mkWord (1 + 0) (2 + 0) "there" (9 # 10) ];
             mkLabeled (-1 # 4) ((26 # 5) + 0 + 0 - 0) (6 + 0 + 0 - 0)
               "SPEAKER_01" "yo"
               [ mkWord ((26 # 5) + 0) (6 + 0) "yo" (9 # 10) ] ]).
  vm_compute. reflexivity.
Defined.

(** ** Where the output comes from *)

Lemma merge_provenance (diarization_list : list Track) (offset_seconds : Z)
    (segs : list Segment) (final_segments : list LabeledSegment)
    (l : LabeledSegment) :
  merge diarization_list offset_seconds segs = Ok final_segments ->
  In l final_segments ->
  exists segment,
    In segment segs /\
    l_avg_logprob l = s_avg_logprob segment /\
    l_start l
    = s_start segment + inject_Z offset_seconds - inject_Z offset_seconds /\
    l_end l
    = s_end segment + inject_Z offset_seconds - inject_Z offset_seconds /\
    forall w, In w (l_words l) ->
      exists w0, In w0 (s_words segment) /\ w = strip_word w0.
Proof.
  unfold merge.
  destruct (segment_loop _ _ segs _ _) as [[st' fs]|] eqn:E;
    [simpl|discriminate].
  intros [= <-] Hl.
  destruct (segment_loop_in _ _ _ _ _ _ _ _ E Hl)
    as [[]|(segment & st1 & st2 & Hs & Hst)].
  exists segment. split; [exact Hs|].
  pose proof Hst as Hlab.
  apply segment_step_labeled in Hlab as (lw & El & _ & _ & _ & Hws).
  unfold segment_step in Hst.
  destruct (word_loop _ _ _ st1 [] []) as [[[st3 txt] wds]|];
    [simpl in Hst|discriminate].
  destruct txt; [discriminate|].
  destruct (speaker st3); [|discriminate].
  injection Hst as _ <-. simpl in *.
  repeat split; try reflexivity.
  intros w Hw. rewrite Hws in Hw.
  apply in_map_iff in Hw as ([w0 label] & <- & Hin).
  destruct (labeled_words_overlap _ _ _ _ _ _ _ _ El Hin) as [Hw0 _].
  exists w0. auto.
Qed.

(** X25: every group of the output has the log-probability of a segment
    of the transcription and starts at the value the code computes from
    that segment's start (the offset added twice and subtracted once),
    and every word of every group is a word of the transcription with
    its timestamps shifted by [offset_seconds] once, its text stripped
    and its probability unchanged. *)
Theorem output_is_the_shifted_transcription
    (diarization_list : list Track) (offset_seconds : Z)
    (group_segments : bool) (fmt : string)
    (raw : list Segment) (final_segments : list LabeledSegment)
    (out : list Group) (g : Group) :
  merge diarization_list offset_seconds (build_segments offset_seconds raw)
  = Ok final_segments ->
  group group_segments fmt final_segments = Ok out ->
  In g out ->
  (exists s,
      In s raw /\
      g_start g
      = s_start s + inject_Z offset_seconds + inject_Z offset_seconds
        - inject_Z offset_seconds /\
      g_avg_logprob g = s_avg_logprob s) /\
  (forall ws w,
      g_words g = Some ws -> In w ws ->
      exists s w0,
        In s raw /\ In w0 (s_words s) /\
        w_start w = w_start w0 + inject_Z offset_seconds /\
        w_end w = w_end w0 + inject_Z offset_seconds /\
        w_word w = PyStr.strip (w_word w0) /\
        w_probability w = w_probability w0).
Proof.
  intros Em Eg Hg. split.
  - destruct (group_runs group_segments fmt final_segments)
      as (runs & E' & Hr & _).
    rewrite E' in Eg. injection Eg as <-.
    apply in_map_iff in Hg as ([s0 done] & <- & Hin).
    assert (Hs0 : In s0 final_segments).
    { rewrite <- Hr. apply in_flat_map. exists (s0, done).
      split; [exact Hin|]. left. reflexivity. }
    destruct (merge_provenance _ _ _ _ _ Em Hs0)
      as (segment & Hs & Ha & Hst & _).
    apply in_map_iff in Hs as (s & <- & Hs). exists s. simpl in *. auto.
  - intros ws w Hws Hw.
    destruct (group_words _ _ _ _ _ _ _ Eg Hg Hws Hw) as (l & Hl & Hwl).
    destruct (merge_provenance _ _ _ _ _ Em Hl)
      as (segment & Hs & _ & _ & _ & Hwords).
    destruct (Hwords w Hwl) as (w1 & Hw1 & ->).
    apply in_map_iff in Hs as (s & <- & Hs). simpl in Hw1.
    apply in_map_iff in Hw1 as (w0 & <- & Hw0).
    exists s, w0. simpl. auto 7.
Qed.

Lemma output_is_the_shifted_transcription_witness :
  exists s w0,
    In s [ Run.segment_yo ] /\ In w0 (s_words s) /\
    (26 # 5) + 7 = w_start w0 + inject_Z 7 /\
    6 + 7 = w_end w0 + inject_Z 7 /\
    "yo"%string = PyStr.strip (w_word w0) /\
    9 # 10 = w_probability w0.
Proof.
  destruct (output_is_the_shifted_transcription
              [ (mkTurn 19 21, "A", "SPEAKER_00")%string ] 7 true "both"
              [ Run.segment_yo ]
              [ mkLabeled (-1 # 4) ((26 # 5) + 7 + 7 - 7) (6 + 7 + 7 - 7)
                  "SPEAKER_00" "yo"
                  [ mkWord ((26 # 5) + 7) (6 + 7) "yo" (9 # 10) ] ]
              [ new_group "both"
                  (mkLabeled (-1 # 4) ((26 # 5) + 7 + 7 - 7) (6 + 7 + 7 - 7)
                     "SPEAKER_00" "yo"
                     [ mkWord ((26 # 5) + 7) (6 + 7) "yo" (9 # 10) ]) ]
              (new_group "both"
                 (mkLabeled (-1 # 4) ((26 # 5) + 7 + 7 - 7) (6 + 7 + 7 - 7)
                    "SPEAKER_00" "yo"
                    [ mkWord ((26 # 5) + 7) (6 + 7) "yo" (9 # 10) ])))
    as [_ H].
  - vm_compute. reflexivity.
  - reflexivity.
  - left. reflexivity.
  - apply (H [ mkWord ((26 # 5) + 7) (6 + 7) "yo" (9 # 10) ]
             (mkWord ((26 # 5) + 7) (6 + 7) "yo" (9 # 10))).
    + reflexivity.
    + left. reflexivity.
Defined.

(** ** The pipeline with a callback that may raise and with its clean-up *)

Lemma to_segments_raises (l : list EngineSegment) (e : exception) :
  to_segments l = Raise e ->
  e = TypeError "'NoneType' object is not iterable" /\
  exists s, In s l /\ e_words s = None.
Proof.
  induction l as [|s rest IH]; simpl; [discriminate|].
  unfold to_segment. destruct (e_words s) as [ws|] eqn:Ew; simpl.
  - destruct (to_segments rest) as [segs|e0]; simpl; [discriminate|].
    intros [= <-]. destruct (IH eq_refl) as (He & x & Hx & Hn).
    split; [exact He|]. exists x. auto.
  - intros [= <-]. split; [reflexivity|]. exists s. auto.
Qed.

Lemma call_back_returns (cb : option (Report -> result unit))
    (st : string) (pr : Z) :
  never_raises cb -> snd (call_back cb st pr) = Ok tt.
Proof.
  intros H. destruct cb as [f|]; simpl; [|reflexivity].
  apply (H f). reflexivity.
Qed.

Lemma call_back_raises (cb : option (Report -> result unit))
    (st : string) (pr : Z) (e : exception) :
  snd (call_back cb st pr) = Raise e ->
  exists f r, cb = Some f /\ f r = Raise e.
Proof.
  destruct cb as [f|]; simpl; [eauto|discriminate].
Qed.

Section FullFacts.

Variable progress_callback : option (Report -> result unit).
Variable acquire_audio :
  option string -> option string -> option string -> result string.
Variable transcribe_engine :
  string -> option string -> option string -> bool -> bool ->
  result (list EngineSegment * string).
Variable Waveform : Type.
Variable torchaudio_load : string -> result Waveform.
Variable diarization_model : Waveform -> option nat -> result (list Track).
Variable str_of_exception : exception -> string.
Variable remove_wav : result unit.

Local Abbreviation transcribe := (transcribe_of transcribe_engine).
Local Abbreviation diarize :=
  (diarize_of Waveform torchaudio_load diarization_model).

(** With a callback that returns from every call, or none, the result is
    the result of [speech_to_text]. *)
Lemma speech_to_text_full_plain (wav : string)
    (num_speakers : option nat) (prompt : option string)
    (offset_seconds : Z) (group_segments : bool)
    (language : option string) (word_timestamps : bool) (fmt : string)
    (translate : bool) :
  never_raises progress_callback ->
  snd (speech_to_text_full progress_callback transcribe_engine Waveform
         torchaudio_load diarization_model wav num_speakers prompt
         offset_seconds group_segments language word_timestamps fmt
         translate)
  = speech_to_text transcribe diarize wav num_speakers prompt offset_seconds
                   group_segments language word_timestamps fmt translate.
Proof.
  intros Hcb.
  unfold speech_to_text_full, speech_to_text, transcribe_of, diarize_of,
    build_engine_segments.
  rewrite ?snd_then_report, call_back_returns by exact Hcb.
  cbn -[merge group]. rewrite ?snd_then_report. cbn -[merge group].
  destruct (transcribe_engine _ _ _ _ _) as [[segs tl]|];
    cbn -[merge group]; [|reflexivity].
  rewrite ?snd_then_report. cbn -[merge group].
  destruct (to_segments segs) as [segs'|]; cbn -[merge group];
    [|reflexivity].
  rewrite ?snd_then_report. cbn -[merge group].
  destruct (torchaudio_load wav) as [w|]; cbn -[merge group];
    [|reflexivity].
  rewrite ?snd_then_report, call_back_returns by exact Hcb.
  cbn -[merge group]. rewrite ?snd_then_report. cbn -[merge group].
  destruct (diarization_model w num_speakers) as [turns|];
    cbn -[merge group]; [|reflexivity].
  rewrite ?snd_then_report. cbn -[merge group].
  destruct (merge _ _ _) as [[|l fs]|]; cbn -[merge group];
    try reflexivity.
  rewrite ?snd_then_report. cbn -[merge group].
  destruct (group _ _ _); cbn -[merge group]; [|reflexivity].
  rewrite ?snd_then_report, call_back_returns by exact Hcb.
  reflexivity.
Qed.

Lemma predict_try_plain (file_string file_url file : option string)
    (group_segments : bool) (fmt : string) (num_speakers : option nat)
    (translate : bool) (language prompt : option string)
    (offset_seconds : Z) :
  never_raises progress_callback ->
  snd (predict_try progress_callback acquire_audio transcribe_engine
         Waveform torchaudio_load diarization_model file_string file_url
         file group_segments fmt num_speakers translate language prompt
         offset_seconds)
  = (temp_wav_filename <- acquire_audio file_string file_url file ;;
     '(segs, detected, detected_language) <-
       speech_to_text transcribe diarize temp_wav_filename num_speakers
                      prompt offset_seconds group_segments language true
                      fmt translate ;;
     Ok (mkOutput segs detected_language detected)).
Proof.
  intros Hcb. unfold predict_try, predict_start.
  destruct file, file_url, file_string;
    repeat (progress
              (rewrite ?snd_then_report, ?call_back_returns by exact Hcb;
               cbn -[speech_to_text_full speech_to_text]));
    (destruct (acquire_audio _ _ _) as [wav|];
     cbn -[speech_to_text_full speech_to_text]; [|reflexivity]);
    repeat (progress
              (rewrite ?snd_then_report, ?call_back_returns by exact Hcb;
               cbn -[speech_to_text_full speech_to_text]));
    rewrite speech_to_text_full_plain by exact Hcb;
    (destruct (speech_to_text _ _ _ _ _ _ _ _ _ _ _) as [[[segs d] tl]|];
     cbn -[speech_to_text_full speech_to_text]; [|reflexivity]);
    repeat (progress
              (rewrite ?snd_then_report, ?call_back_returns by exact Hcb;
               cbn -[speech_to_text_full speech_to_text]));
    reflexivity.
Qed.

(** With a callback that returns from every call, or none, the [try]
    and [except] clauses together have the result of [predict]. *)
Lemma predict_except_plain (file_string file_url file : option string)
    (group_segments : bool) (fmt : string) (num_speakers : option nat)
    (translate : bool) (language prompt : option string)
    (offset_seconds : Z) :
  never_raises progress_callback ->
  snd (predict_except progress_callback str_of_exception
         (predict_try progress_callback acquire_audio transcribe_engine
            Waveform torchaudio_load diarization_model file_string
            file_url file group_segments fmt num_speakers translate
            language prompt offset_seconds))
  = predict acquire_audio transcribe diarize file_string file_url file
            group_segments fmt num_speakers translate language prompt
            offset_seconds.
Proof.
  intros Hcb. unfold predict_except, predict.
  rewrite (predict_try_plain file_string file_url file group_segments fmt
             num_speakers translate language prompt offset_seconds Hcb).
  match goal with
  | |- snd (match ?r with _ => _ end) = _ => destruct r as [o|e] eqn:E
  end.
  - rewrite <- E. apply predict_try_plain. exact Hcb.
  - cbn [snd]. rewrite call_back_returns by exact Hcb. reflexivity.
Qed.

(** And [predict_full] has that result unless the removal of the file
    raises. *)
Lemma predict_full_plain (file_string file_url file : option string)
    (group_segments : bool) (fmt : string) (num_speakers : option nat)
    (translate : bool) (language prompt : option string)
    (offset_seconds : Z) :
  never_raises progress_callback ->
  snd (predict_full progress_callback acquire_audio transcribe_engine
         Waveform torchaudio_load diarization_model str_of_exception
         remove_wav file_string file_url file group_segments fmt
         num_speakers translate language prompt offset_seconds)
  = match remove_wav with
    | Ok _ =>
        predict acquire_audio transcribe diarize file_string file_url file
                group_segments fmt num_speakers translate language prompt
                offset_seconds
    | Raise e => Raise e
    end.
Proof.
  intros Hcb. unfold predict_full, predict_finally, predict_start.
  cbn [snd]. rewrite call_back_returns by exact Hcb.
  rewrite predict_except_plain by exact Hcb. reflexivity.
Qed.

End FullFacts.

(** X3: [speech_to_text] raises only what comes from outside it: what the
    callback raised, what the transcription, the loading of the audio or
    the diarization raised, or the [TypeError] of line 219 on a segment
    whose words are [None]; the merge and the grouping raise nothing of
    their own. *)
Theorem speech_to_text_raises_from_outside
    (progress_callback : option (Report -> result unit))
    (transcribe_engine :
       string -> option string -> option string -> bool -> bool ->
       result (list EngineSegment * string))
    (Waveform : Type) (torchaudio_load : string -> result Waveform)
    (diarization_model : Waveform -> option nat -> result (list Track))
    (wav : string) (num_speakers : option nat) (prompt : option string)
    (offset_seconds : Z) (group_segments : bool) (language : option string)
    (word_timestamps : bool) (fmt : string) (translate : bool)
    (e : exception) :
  snd (speech_to_text_full progress_callback transcribe_engine Waveform
         torchaudio_load diarization_model wav num_speakers prompt
         offset_seconds group_segments language word_timestamps fmt
         translate) = Raise e ->
  (exists f r, progress_callback = Some f /\ f r = Raise e) \/
  transcribe_engine wav prompt language translate word_timestamps
  = Raise e \/
  (e = TypeError "'NoneType' object is not iterable" /\
   exists segs tl s,
     transcribe_engine wav prompt language translate word_timestamps
     = Ok (segs, tl) /\
     In s segs /\ e_words s = None) \/
  torchaudio_load wav = Raise e \/
  (exists w, diarization_model w num_speakers = Raise e).
Proof.
  unfold speech_to_text_full, build_engine_segments.
  rewrite snd_then_report.
  destruct (snd (call_back progress_callback _ 50)) as [u|e0] eqn:E50;
    cbn [bind].
  2: { intros [= <-]. left. eapply call_back_raises; eauto. }
  rewrite snd_then_report. cbn [quiet snd].
  destruct (transcribe_engine _ _ _ _ _) as [[segs tl]|e1] eqn:Et;
    cbn [bind].
  2: { intros [= <-]. auto. }
  rewrite snd_then_report. cbn [quiet snd].
  destruct (to_segments segs) as [segs'|e2] eqn:Es; cbn [bind].
  2: { intros [= <-]. apply to_segments_raises in Es as (He & s & Hs & Hn).
       right. right. left. split; [exact He|]. exists segs, tl, s. auto. }
  rewrite snd_then_report. cbn [quiet snd].
  destruct (torchaudio_load wav) as [w|e3] eqn:El; cbn [bind].
  2: { intros [= <-]. auto. }
  rewrite snd_then_report.
  destruct (snd (call_back progress_callback _ 60)) as [u'|e4] eqn:E60;
    cbn [bind].
  2: { intros [= <-]. left. eapply call_back_raises; eauto. }
  rewrite snd_then_report. cbn [quiet snd].
  destruct (diarization_model w num_speakers) as [turns|e5] eqn:Ed;
    cbn [bind].
  2: { intros [= <-]. right. right. right. right. eauto. }
  rewrite snd_then_report. cbn [quiet snd].
  destruct (merge_returns turns offset_seconds
              (build_segments offset_seconds segs')) as (fs & ->).
  cbn [bind]. destruct fs as [|l fs]; [discriminate|].
  rewrite snd_then_report. cbn [quiet snd].
  destruct (group_returns group_segments fmt (l :: fs)) as (out & -> & _).
  cbn [bind]. rewrite snd_then_report.
  destruct (snd (call_back progress_callback _ 90)) as [u''|e6] eqn:E90;
    cbn [bind].
  - discriminate.
  - intros [= <-]. left. eapply call_back_raises; eauto.
Qed.

Lemma speech_to_text_raises_from_outside_witness :
  (exists f r,
      @None (Report -> result unit) = Some f /\
      f r = Raise (TypeError "'NoneType' object is not iterable")) \/
  Ok ([ mkEngineSegment (-1 # 5) 0 1 " hi" None ], "en"%string)
  = Raise (TypeError "'NoneType' object is not iterable") \/
  (TypeError "'NoneType' object is not iterable"
   = TypeError "'NoneType' object is not iterable" /\
   exists segs tl s,
     Ok ([ mkEngineSegment (-1 # 5) 0 1 " hi" None ], "en"%string)
     = Ok (segs, tl) /\
     In s segs /\ e_words s = None) \/
  @Ok unit tt = Raise (TypeError "'NoneType' object is not iterable") \/
  (exists w : unit,
      Ok Run.turns_early
      = Raise (TypeError "'NoneType' object is not iterable")).
Proof.
  apply (speech_to_text_raises_from_outside None
           (fun _ _ _ _ _ =>
              Ok ([ mkEngineSegment (-1 # 5) 0 1 " hi" None ], "en"%string))
           unit (fun _ => Ok tt) (fun _ _ => Ok Run.turns_early)
           "temp-0.wav" None None 0 true None false "both" false).
  reflexivity.
Defined.

(** X14: what [predict] raises.  When the callback raises on the first
    report, before [temp_wav_filename] is bound, the [finally] clause
    raises [UnboundLocalError]; otherwise, when the removal of the file
    raises, that exception takes the place of any outcome; otherwise,
    with a callback that returns from every call or with none, [predict]
    raises nothing but [RuntimeError] with its fixed message, carrying
    the exception of the first stage that failed: the acquisition of the
    audio, the transcription, the words of a segment, the loading of the
    audio or the diarization. *)
Theorem what_predict_raises
    (progress_callback : option (Report -> result unit))
    (acquire_audio :
       option string -> option string -> option string -> result string)
    (transcribe_engine :
       string -> option string -> option string -> bool -> bool ->
       result (list EngineSegment * string))
    (Waveform : Type) (torchaudio_load : string -> result Waveform)
    (diarization_model : Waveform -> option nat -> result (list Track))
    (str_of_exception : exception -> string) (remove_wav : result unit)
    (file_string file_url file : option string)
    (group_segments : bool) (fmt : string) (num_speakers : option nat)
    (translate : bool) (language prompt : option string)
    (offset_seconds : Z) :
  let run :=
    predict_full progress_callback acquire_audio transcribe_engine Waveform
      torchaudio_load diarization_model str_of_exception remove_wav
      file_string file_url file group_segments fmt num_speakers translate
      language prompt offset_seconds in
  (forall e0,
      snd (predict_start progress_callback) = Raise e0 ->
      snd run = Raise (UnboundLocalError "temp_wav_filename")) /\
  (forall u e1,
      snd (predict_start progress_callback) = Ok u ->
      remove_wav = Raise e1 ->
      snd run = Raise e1) /\
  (forall u e,
      never_raises progress_callback ->
      remove_wav = Ok u ->
      snd run = Raise e ->
      exists cause,
        e = RuntimeError "Error Running inference with local model" cause /\
        (acquire_audio file_string file_url file = Raise cause \/
         exists wav,
           acquire_audio file_string file_url file = Ok wav /\
           (transcribe_engine wav prompt language translate true
            = Raise cause \/
            (cause = TypeError "'NoneType' object is not iterable" /\
             exists segs tl s,
               transcribe_engine wav prompt language translate true
               = Ok (segs, tl) /\
               In s segs /\ e_words s = None) \/
            torchaudio_load wav = Raise cause \/
            (exists w, diarization_model w num_speakers = Raise cause)))).
Proof.
  intros run. subst run. split; [|split].
  - intros e0 H. unfold predict_full, predict_finally. cbn [snd].
    rewrite H. reflexivity.
  - intros u e1 H Hr. unfold predict_full, predict_finally. cbn [snd].
    rewrite H, Hr. reflexivity.
  - intros u e Hcb Hr.
    rewrite predict_full_plain by exact Hcb. rewrite Hr. intros H.
    apply predict_plain_raises in H as (cause & He & Hc).
    exists cause. split; [exact He|].
    destruct Hc as [Hc|(wav & Ha & Hc)]; [auto|].
    right. exists wav. split; [exact Ha|].
    destruct Hc as [Hc|[_ Hc]].
    + unfold transcribe_of in Hc.
      destruct (transcribe_engine _ _ _ _ _) as [[segs tl]|e1] eqn:Et;
        simpl in Hc; [|injection Hc as <-; auto].
      destruct (to_segments segs) as [segs'|e2] eqn:Es; simpl in Hc;
        [discriminate|]. injection Hc as <-.
      apply to_segments_raises in Es as (Hty & s & Hs & Hn).
      right. left. split; [exact Hty|]. exists segs, tl, s. auto.
    + unfold diarize_of in Hc.
      destruct (torchaudio_load wav) as [w|e1]; simpl in Hc;
        [|injection Hc as <-; auto].
      right. right. right. eauto.
Qed.

Lemma what_predict_raises_witness :
  snd (predict_full (Some (fun _ => Run.failing)) Run.acquire_ok
         (fun _ _ _ _ _ =>
            Ok ([ mkEngineSegment (-1 # 5) 0 1 " hi" None ], "en"%string))
         unit (fun _ => Ok tt) (fun _ _ => Ok Run.turns_early)
         (fun _ => ""%string) (Ok tt)
         None (Some "http://host/a.mp3"%string) None true "both" None false
         None None 0)
  = Raise (UnboundLocalError "temp_wav_filename") /\
  exists cause,
    RuntimeError "Error Running inference with local model"
                 (TypeError "'NoneType' object is not iterable")
    = RuntimeError "Error Running inference with local model" cause.
Proof.
  split.
  - destruct (what_predict_raises (Some (fun _ => Run.failing))
                Run.acquire_ok
                (fun _ _ _ _ _ =>
                   Ok ([ mkEngineSegment (-1 # 5) 0 1 " hi" None ],
                       "en"%string))
                unit (fun _ => Ok tt) (fun _ _ => Ok Run.turns_early)
                (fun _ => ""%string) (Ok tt)
                None (Some "http://host/a.mp3"%string) None true "both"
                None false None None 0) as (H & _).
    apply (H (ExternalError "engine")). reflexivity.
  - destruct (what_predict_raises None Run.acquire_ok
                (fun _ _ _ _ _ =>
                   Ok ([ mkEngineSegment (-1 # 5) 0 1 " hi" None ],
                       "en"%string))
                unit (fun _ => Ok tt) (fun _ _ => Ok Run.turns_early)
                (fun _ => ""%string) (Ok tt)
                None (Some "http://host/a.mp3"%string) None true "both"
                None false None None 0) as (_ & _ & H).
    destruct (H tt (RuntimeError "Error Running inference with local model"
                      (TypeError "'NoneType' object is not iterable")))
      as (cause & He & _).
    + intros f r [=].
    + reflexivity.
    + reflexivity.
    + exists cause. exact He.
Defined.

(** X20: a callback that returns from every call changes no result:
    with it [predict] and [speech_to_text] return and raise what they
    do with no callback. *)
Theorem returning_callback_changes_no_result
    (f : Report -> result unit)
    (acquire_audio :
       option string -> option string -> option string -> result string)
    (transcribe_engine :
       string -> option string -> option string -> bool -> bool ->
       result (list EngineSegment * string))
    (Waveform : Type) (torchaudio_load : string -> result Waveform)
    (diarization_model : Waveform -> option nat -> result (list Track))
    (str_of_exception : exception -> string) (remove_wav : result unit)
    (file_string file_url file : option string)
    (group_segments : bool) (fmt : string) (num_speakers : option nat)
    (translate word_timestamps : bool) (language prompt : option string)
    (offset_seconds : Z) (wav : string) :
  (forall r, f r = Ok tt) ->
  snd (predict_full (Some f) acquire_audio transcribe_engine Waveform
         torchaudio_load diarization_model str_of_exception remove_wav
         file_string file_url file group_segments fmt num_speakers
         translate language prompt offset_seconds)
  = snd (predict_full None acquire_audio transcribe_engine Waveform
           torchaudio_load diarization_model str_of_exception remove_wav
           file_string file_url file group_segments fmt num_speakers
           translate language prompt offset_seconds) /\
  snd (speech_to_text_full (Some f) transcribe_engine Waveform
         torchaudio_load diarization_model wav num_speakers prompt
         offset_seconds group_segments language word_timestamps fmt
         translate)
  = snd (speech_to_text_full None transcribe_engine Waveform
           torchaudio_load diarization_model wav num_speakers prompt
           offset_seconds group_segments language word_timestamps fmt
           translate).
Proof.
  intros Hf.
  assert (H1 : never_raises (Some f)).
  { intros g r [= <-]. apply Hf. }
  assert (H2 : never_raises (@None (Report -> result unit))).
  { intros g r [=]. }
  split.
  - rewrite (predict_full_plain (Some f)) by exact H1.
    rewrite (predict_full_plain None) by exact H2. reflexivity.
  - rewrite (speech_to_text_full_plain (Some f)) by exact H1.
    rewrite (speech_to_text_full_plain None) by exact H2. reflexivity.
Qed.

Lemma returning_callback_changes_no_result_witness :
  snd (predict_full (Some (fun _ => Ok tt)) Run.acquire_ok
         (fun _ _ _ _ _ =>
            Ok ([ mkEngineSegment (-1 # 5) 0 1 " hi"
                    (Some [ Run.word 0 1 " hi" ]) ], "en"%string))
         unit (fun _ => Ok tt) (fun _ _ => Ok Run.turns_early)
         (fun _ => ""%string) (Ok tt)
         None (Some "http://host/a.mp3"%string) None true "both" None false
         None None 0)
  = snd (predict_full None Run.acquire_ok
           (fun _ _ _ _ _ =>
              Ok ([ mkEngineSegment (-1 # 5) 0 1 " hi"
                      (Some [ Run.word 0 1 " hi" ]) ], "en"%string))
           unit (fun _ => Ok tt) (fun _ _ => Ok Run.turns_early)
           (fun _ => ""%string) (Ok tt)
           None (Some "http://host/a.mp3"%string) None true "both" None
           false None None 0).
Proof.
  destruct (returning_callback_changes_no_result
              (fun _ => Ok tt) Run.acquire_ok
              (fun _ _ _ _ _ =>
                 Ok ([ mkEngineSegment (-1 # 5) 0 1 " hi"
                         (Some [ Run.word 0 1 " hi" ]) ], "en"%string))
              unit (fun _ => Ok tt) (fun _ _ => Ok Run.turns_early)
              (fun _ => ""%string) (Ok tt)
              None (Some "http://host/a.mp3"%string) None true "both" None
              false true None None 0 "temp-0.wav") as [H _].
  - reflexivity.
  - exact H.
Defined.
